(** * tei2spacy pipeline: a shallow embedding of [tei2spacy-pipeline.ipynb]

    The notebook flattens the [reg] elements of a TEI file to plain text,
    remembers the character offsets of [persName] / [placeName] elements in a
    dict, runs a tokenizer over the text, labels every token by looking its
    character range up in that dict, merges runs of equally labelled tokens
    into entities, and appends the resulting documents to a [DocBin].

    Python integers are [Z], Python [str] is [string] ([len] counts its
    characters), an insertion-ordered [dict] is an association list with
    unique keys, a [set] is a [gset], [None] is [None], and a computation
    that may raise ([KeyError], [IndexError], a file that cannot be read or
    parsed) is in the option monad, where [None] stands for the exception. *)

From Stdlib Require Import ZArith Lia String Ascii Sorted.
From stdpp Require Import base option list strings pretty gmap sets.

Local Open Scope Z_scope.

(** ** Strings *)

Definition len (s : string) : Z := Z.of_nat (String.length s).

(** ** Insertion-ordered dictionaries

    [d[k] = v] overwrites the value of an existing key in place and appends a
    new key at the end; iteration ([d.items()]) follows the list. *)

Section PyDict.
Context {K V : Type} `{EqDecision K}.

Fixpoint dict_set (k : K) (v : V) (d : list (K * V)) : list (K * V) :=
  match d with
  | [] => [(k, v)]
  | (k', v') :: d' =>
      if decide (k = k') then (k, v) :: d' else (k', v') :: dict_set k v d'
  end.

Fixpoint dict_get (k : K) (d : list (K * V)) : option V :=
  match d with
  | [] => None
  | (k', v') :: d' => if decide (k = k') then Some v' else dict_get k d'
  end.

Definition dict_keys (d : list (K * V)) : list K := d.*1.
End PyDict.

(** ** The parsed markup (BeautifulSoup)

    A node of the tree is a [NavigableString], which is a [str], or a [Tag]
    with a name and its children ([contents]). *)

#[warnings="-register-all"]
Inductive PageElement : Type :=
  | NavigableString (s : string)
  | Tag (name : string) (contents : list PageElement).

Module Node.
(** [node.text]: the concatenation of all strings below the node. *)
Fixpoint text (node : PageElement) : string :=
  match node with
  | NavigableString s => s
  | Tag _ cs =>
      (fix texts (l : list PageElement) : string :=
         match l with
         | [] => ""
         | c :: l' => text c +:+ texts l'
         end) cs
  end.

Definition contents (node : PageElement) : list PageElement :=
  match node with
  | NavigableString _ => []
  | Tag _ cs => cs
  end.

(** All nodes strictly below [node], in document order. *)
Fixpoint descendants (node : PageElement) : list PageElement :=
  match node with
  | NavigableString _ => []
  | Tag _ cs =>
      (fix below (l : list PageElement) : list PageElement :=
         match l with
         | [] => []
         | c :: l' => c :: descendants c ++ below l'
         end) cs
  end.

Definition named (name : string) (node : PageElement) : bool :=
  match node with
  | NavigableString _ => false
  | Tag nm _ => bool_decide (nm = name)
  end.

(** [soup.findAll(name)] *)
Definition findAll (name : string) (soup : PageElement) : list PageElement :=
  List.filter (named name) (descendants soup).
End Node.

(** ** Tokens, spans and documents (spaCy)

    [Token]: [i] is the index of the token in its document, [idx] the
    character offset of its first character, [text] its verbatim text. *)

Module Token.
Record t : Type := mk { i : Z; idx : Z; text : string }.
End Token.

Module Span.
Record t : Type := mk { start : Z; end_ : Z; label : string }.
End Span.

(** A value of [doc.user_data] is a [str] or [None]. Assigning [doc.ents]
    replaces the entities that the language model had set. *)
Module Doc.
Record t : Type := mk {
  tokens : list Token.t;
  user_data : gmap string (option string);
  ents : list Span.t
}.

Definition set_user_data (k : string) (v : option string) (doc : t) : t :=
  mk (tokens doc) (<[k := v]> (user_data doc)) (ents doc).

Definition set_ents (spans : list Span.t) (doc : t) : t :=
  mk (tokens doc) (user_data doc) spans.
End Doc.

(** A [DocBin] keeps the documents added to it, in order; [add] puts one more
    document at the end and checks nothing. *)
Module DocBin.
Definition t : Type := list Doc.t.
Definition empty : t := [].
Definition add (bin : t) (doc : Doc.t) : t := bin ++ [doc].
Definition get_docs (bin : t) : list Doc.t := bin.
End DocBin.

(** ** What the notebook takes from outside

    [textentlib.utils] and the file system are not part of the notebook:
    the label of a TEI element name, the language model (tokenizer), the
    metadata of a TEI file (a dict), the parsed content of a file, the
    listing of a directory, the sampling helper, and the order in which a
    Python [set] hands out its elements. Reading and parsing a file, the
    language model and the sampling helper may raise: they return [None]
    then. Paths are represented by their [str]. *)

Class World : Type := {
  tei_element_to_ner_label : string → string;
  nlp_model_fr : string → option Doc.t;
  extract_metadata_from_tei : string → option (gmap string (option string));
  read_soup : string → option PageElement;
  iterdir : string → list string;
  sample_files : string → Z → gset string → option (list string);
  set_iter : gset string → list string
}.

(** A [set] hands out each of its elements once, in some order. *)
Definition iterates_once (W : World) : Prop :=
  ∀ X : gset string, set_iter X ≡ₚ elements X.

(** ** [get_tag_from_char_index] *)

Fixpoint get_tag_from_char_index (char_start char_end : Z)
    (entities : list ((Z * Z) * string)) : option string :=
  match entities with
  | [] => None
  | ((start, end_), tag) :: rest =>
      if (start <=? char_start) && (end_ >=? char_end) then Some tag
      else get_tag_from_char_index char_start char_end rest
  end.

(** The call in [tei2spacy_simple]:
    [get_tag_from_char_index(token.idx, token.idx + len(token.text), chunks)]. *)
Definition token_label (chunks : list ((Z * Z) * string)) (token : Token.t)
    : option string :=
  get_tag_from_char_index (Token.idx token)
    (Token.idx token + len (Token.text token)) chunks.

(** An interval contains a character range. *)
Definition contains (iv : Z * Z) (char_start char_end : Z) : Prop :=
  iv.1 ≤ char_start ∧ char_end ≤ iv.2.

(** ** The lookup as the specification words it

    A scan over intervals sorted by start that stops as soon as
    [interval.start > token.end]. *)

Fixpoint sorted_scan (token_start token_end : Z)
    (intervals : list ((Z * Z) * string)) : option string :=
  match intervals with
  | [] => None
  | ((start, end_), tag) :: rest =>
      if start >? token_end then None
      else if (start <=? token_start) && (end_ >=? token_end) then Some tag
      else sorted_scan token_start token_end rest
  end.

Definition sorted_by_start (intervals : list ((Z * Z) * string)) : Prop :=
  StronglySorted (λ a b, a.1.1 ≤ b.1.1) intervals.

Definition non_overlapping (intervals : list ((Z * Z) * string)) : Prop :=
  ∀ (m n : nat) a b, m ≠ n →
    intervals !! m = Some a → intervals !! n = Some b →
    a.1.2 ≤ b.1.1 ∨ b.1.2 ≤ a.1.1.

(** ** [tei2spacy_simple], first loop: flattening the [reg] elements

    The state is [(output_text, chunks)]. *)

Section Flattener.
Context `{W : World}.

Definition is_annotation (name : string) : bool :=
  bool_decide (name = "persName") || bool_decide (name = "placeName").

Definition flatten_node (st : string * list ((Z * Z) * string))
    (node : PageElement) : string * list ((Z * Z) * string) :=
  let '(output_text, chunks) := st in
  match node with
  | NavigableString _ => (output_text +:+ Node.text node, chunks)
  | Tag name _ =>
      if is_annotation name then
        let offset_start := len output_text in
        let output_text := output_text +:+ Node.text node in
        let offset_end := len output_text in
        let ner_tag := tei_element_to_ner_label name in
        (output_text, dict_set (offset_start, offset_end) ner_tag chunks)
      else (output_text +:+ Node.text node, chunks)
  end.

Definition flatten_elem (st : string * list ((Z * Z) * string))
    (elem : PageElement) : string * list ((Z * Z) * string) :=
  let '(output_text, chunks) := foldl flatten_node st (Node.contents elem) in
  (output_text +:+ " ", chunks).

Definition flatten_regs (regs : list PageElement)
    : string * list ((Z * Z) * string) :=
  foldl flatten_elem ("", []) regs.

Definition flatten (soup : PageElement) : string * list ((Z * Z) * string) :=
  flatten_regs (Node.findAll "reg" soup).
End Flattener.

(** ** [tei2spacy_simple], second loop: merging labelled tokens

    [entity] is a dict that has the keys ['label'] and ['chunks'] or none of
    them; reading a missing key, or the first or last item of an empty
    list, raises. A dict that has been appended to [entities] is not written
    again: [entity] is bound to a new dict in the same branch. *)

Module Entity.
Record t : Type := mk { label : option string; chunks : option (list Token.t) }.
Definition empty : t := mk None None.
End Entity.

Record merge_state : Type := MergeState {
  entities : list Entity.t;
  entity : Entity.t;
  inside_entity : bool
}.

Definition merge_init : merge_state := MergeState [] Entity.empty false.

Definition merge_step (chunks : list ((Z * Z) * string)) (st : merge_state)
    (token : Token.t) : option merge_state :=
  let ner_label := token_label chunks token in
  if inside_entity st then
    match ner_label with
    | None => Some (MergeState (entities st ++ [entity st]) Entity.empty false)
    | Some l =>
        lbl ← Entity.label (entity st);
        if decide (lbl = l) then
          toks ← Entity.chunks (entity st);
          Some (MergeState (entities st)
                  (Entity.mk (Entity.label (entity st)) (Some (toks ++ [token])))
                  true)
        else
          Some (MergeState (entities st ++ [entity st])
                  (Entity.mk (Some l) (Some [token])) true)
    end
  else
    match ner_label with
    | Some l =>
        Some (MergeState (entities st) (Entity.mk (Some l) (Some [token])) true)
    | None => Some st
    end.

Fixpoint merge_loop (chunks : list ((Z * Z) * string)) (st : merge_state)
    (doc : list Token.t) : option merge_state :=
  match doc with
  | [] => Some st
  | token :: rest => st' ← merge_step chunks st token; merge_loop chunks st' rest
  end.

(** The conversion to token indices: [start] is the index of the first token
    of the entity, [end] the index of its last token plus one. *)
Definition to_spacy_ent (entity : Entity.t) : option Span.t :=
  toks ← Entity.chunks entity;
  first ← head toks;
  final ← last toks;
  lbl ← Entity.label entity;
  Some (Span.mk (Token.i first) (Token.i final + 1) lbl).

Definition entities_to_add (chunks : list ((Z * Z) * string))
    (doc : list Token.t) : option (list Span.t) :=
  st ← merge_loop chunks merge_init doc;
  mapM to_spacy_ent (entities st).

(** The tokens of a document are numbered from zero. *)
Definition doc_indexed (doc : list Token.t) : Prop :=
  Token.i <$> doc = Z.of_nat <$> seq 0 (length doc).

(** ** The merger as the specification words it

    The same scan, which after the last token closes a span that is still
    open. *)

Definition merge_flush (st : merge_state) : list Entity.t :=
  if inside_entity st then entities st ++ [entity st] else entities st.

Definition entities_with_flush (chunks : list ((Z * Z) * string))
    (doc : list Token.t) : option (list Span.t) :=
  st ← merge_loop chunks merge_init doc;
  mapM to_spacy_ent (merge_flush st).

(** ** [tei2spacy_simple] *)

(** [tei_file_path.name]: what follows the last separator. *)
Fixpoint path_name_from (s acc : string) : string :=
  match s with
  | "" => acc
  | String c s' =>
      if decide (c = "/"%char) then path_name_from s' ""
      else path_name_from s' (acc +:+ String c "")
  end.

Definition path_name (path : string) : string := path_name_from path "".

(** The string has a path separator in it. *)
Fixpoint has_separator (s : string) : bool :=
  match s with
  | "" => false
  | String c s' => bool_decide (c = "/"%char) || has_separator s'
  end.

Section Pipeline.
Context `{W : World}.

Definition tei2spacy_simple (tei_file_path : string) : option Doc.t :=
  soup ← read_soup tei_file_path;
  let '(output_text, chunks) := flatten soup in
  metadata ← extract_metadata_from_tei tei_file_path;
  doc ← nlp_model_fr output_text;
  author ← metadata !! "author";
  let doc := Doc.set_user_data "author" author doc in
  title ← metadata !! "title";
  let doc := Doc.set_user_data "title" title doc in
  date ← metadata !! "date";
  let doc := Doc.set_user_data "publication_date" date doc in
  let doc := Doc.set_user_data "path" (Some tei_file_path) doc in
  let doc := Doc.set_user_data "filename" (Some (path_name tei_file_path)) doc in
  let doc := Doc.set_user_data "entity_linking" None doc in
  spans ← entities_to_add chunks (Doc.tokens doc);
  Some (Doc.set_ents spans doc).

(** ** The batch: the cells of the notebook, in order

    The state that survives a run is the content of the serialized corpus
    file: [None] when the file does not exist. A run that raises does not
    reach [to_disk]. *)

Definition sample_size : Z := 100.
Definition ner_dir : string := "../TheatreLFSV2-downloaded/NER".

Definition load_corpus (disk : option DocBin.t) : DocBin.t :=
  match disk with
  | Some bin => bin
  | None => DocBin.empty
  end.

(** [Path(doc.user_data['path'])] *)
Definition doc_path (doc : Doc.t) : option string :=
  v ← Doc.user_data doc !! "path"; v.

Definition already_processed_files (spacy_corpus : DocBin.t)
    : option (gset string) :=
  paths ← mapM doc_path (DocBin.get_docs spacy_corpus);
  Some (list_to_set paths).

(** The files handed to [tei2spacy_simple]. The sample drawn by
    [sample_files] is replaced by the whole complement before it is used;
    the [assert] raises when the check fails. *)
Definition files_to_process (disk : option DocBin.t) : option (list string) :=
  let spacy_corpus := load_corpus disk in
  already ← already_processed_files spacy_corpus;
  sampled_files ← sample_files ner_dir sample_size already;
  let sampled_files : gset string := list_to_set (iterdir ner_dir) ∖ already in
  if decide (size (sampled_files ∖ already) = size sampled_files)
  then Some (set_iter sampled_files)
  else None.

Definition run_batch (disk : option DocBin.t) : option DocBin.t :=
  files ← files_to_process disk;
  docs ← mapM tei2spacy_simple files;
  Some (foldl DocBin.add (load_corpus disk) docs).

Definition disk_after_run (disk : option DocBin.t) : option DocBin.t :=
  match run_batch disk with
  | Some bin => Some bin
  | None => disk
  end.
End Pipeline.

(** The paths of the documents of a corpus: its membership set. *)
Definition corpus_paths (bin : DocBin.t) : list string :=
  omap doc_path bin.

(** Modelled from the spec: [print_corpus_summary] is in [textentlib.utils];
    the summary is the number of documents, the sum of their entity counts
    and the sum of their token counts. *)
Definition corpus_summary (bin : DocBin.t) : Z * Z * Z :=
  (Z.of_nat (length bin),
   foldr Z.add 0 ((λ doc, Z.of_nat (length (Doc.ents doc))) <$> bin),
   foldr Z.add 0 ((λ doc, Z.of_nat (length (Doc.tokens doc))) <$> bin)).

(** ** Predicates used to state and prove the properties *)

(** What holds of [(output_text, chunks)] all along the first loop: the keys
    of [chunks] are pairwise distinct, and every recorded interval lies
    inside the text written so far. *)
Definition flat_inv (st : string * list ((Z * Z) * string)) : Prop :=
  NoDup (dict_keys st.2) ∧
  ∀ iv, iv ∈ dict_keys st.2 → iv.1 ≤ iv.2 ∧ iv.2 ≤ len st.1.

(** The interval that the first loop records for an annotation element read
    in state [st]. *)
Definition interval_of (st : string * list ((Z * Z) * string))
    (node : PageElement) : Z * Z :=
  (len st.1, len st.1 + len (Node.text node)).

(** One step of the first loop: a child node is read, or the blank that
    ends a [reg] element is written. *)
Inductive flat_step `{W : World}
    : relation (string * list ((Z * Z) * string)) :=
  | flat_step_node st node : flat_step st (flatten_node st node)
  | flat_step_blank output_text chunks :
      flat_step (output_text, chunks) (output_text +:+ " ", chunks).

(** Spans with [start < end], each ending before the next begins, and no two
    neighbours that touch and have the same label. *)
Definition spans_good (spans : list Span.t) : Prop :=
  Forall (λ sp, Span.start sp < Span.end_ sp) spans ∧
  (∀ (m n : nat) a b, (m < n)%nat →
     spans !! m = Some a → spans !! n = Some b → Span.end_ a ≤ Span.start b) ∧
  (∀ (m : nat) a b,
     spans !! m = Some a → spans !! S m = Some b →
     Span.end_ a = Span.start b → Span.label a ≠ Span.label b).

(** What holds of the state of the second loop when the tokens [0 .. n-1]
    have been read. *)
Definition merge_inv (n : Z) (st : merge_state) : Prop :=
  ∃ spans,
    mapM to_spacy_ent (entities st) = Some spans ∧
    spans_good spans ∧
    if inside_entity st then
      ∃ l toks first final,
        entity st = Entity.mk (Some l) (Some toks) ∧
        head toks = Some first ∧ last toks = Some final ∧
        Token.i first ≤ n - 1 ∧ Token.i final = n - 1 ∧
        Forall (λ sp, Span.end_ sp ≤ Token.i first) spans ∧
        (∀ sp, last spans = Some sp →
           Span.end_ sp = Token.i first → Span.label sp ≠ l)
    else Forall (λ sp, Span.end_ sp < n) spans.

(** An entity with a label and at least one token. *)
Definition entity_closed (e : Entity.t) : Prop :=
  ∃ l toks, e = Entity.mk (Some l) (Some toks) ∧ toks ≠ [].

Definition merge_safe (st : merge_state) : Prop :=
  Forall entity_closed (entities st) ∧
  (inside_entity st = true → entity_closed (entity st)).

(** The membership test of the Corpus Store. *)
Definition corpus_contains (bin : DocBin.t) (path : string) : bool :=
  bool_decide (path ∈ corpus_paths bin).

(** ** Further notions for the flattener and the merger *)

(** The texts of the [reg] elements, each followed by one blank. *)
Definition reg_texts (regs : list PageElement) : string :=
  foldr (λ elem acc, Node.text elem +:+ " " +:+ acc) "" regs.

(** [s[a:b]] for offsets [0 <= a <= b]. *)
Definition slice (s : string) (a b : Z) : string :=
  substring (Z.to_nat a) (Z.to_nat (b - a)) s.

(** Every interval ends where it begins or later, and no later than any
    interval after it begins. *)
Definition intervals_chained (chunks : list ((Z * Z) * string)) : Prop :=
  StronglySorted (λ a b, a.1.2 ≤ b.1.1) chunks ∧
  Forall (λ a, a.1.1 ≤ a.1.2) chunks.

(** The intervals are chained and end inside the text written so far. *)
Definition flat_chain (st : string * list ((Z * Z) * string)) : Prop :=
  intervals_chained st.2 ∧ Forall (λ a, a.1.2 ≤ len st.1) st.2.

(** The label that the projector gives to the token at position [k]. *)
Definition label_at (chunks : list ((Z * Z) * string)) (doc : list Token.t)
    (k : nat) : option string :=
  token ← doc !! k; token_label chunks token.

(** The closed spans, after the tokens of [pre] have been read and with
    everything before position [bound] settled: they lie between 0 and
    [bound] and end before the last token read, they cover only tokens that
    carry their label, every labelled token before [bound] is covered by a
    span with its label, and the tokens next to a span on either side do not
    carry its label. *)
Definition closed_ok (chunks : list ((Z * Z) * string)) (pre : list Token.t)
    (bound : Z) (spans : list Span.t) : Prop :=
  (∀ sp, sp ∈ spans →
     0 ≤ Span.start sp ∧ Span.start sp < Span.end_ sp ∧
     Span.end_ sp ≤ bound ∧ Span.end_ sp < Z.of_nat (length pre)) ∧
  (∀ sp (k : nat), sp ∈ spans →
     Span.start sp ≤ Z.of_nat k < Span.end_ sp →
     label_at chunks pre k = Some (Span.label sp)) ∧
  (∀ (k : nat) l, label_at chunks pre k = Some l → Z.of_nat k < bound →
     ∃ sp, sp ∈ spans ∧ Span.start sp ≤ Z.of_nat k < Span.end_ sp ∧
           Span.label sp = l) ∧
  (∀ sp (k : nat), sp ∈ spans → Z.of_nat k = Span.end_ sp →
     label_at chunks pre k ≠ Some (Span.label sp)) ∧
  (∀ sp (k : nat), sp ∈ spans → Z.of_nat k + 1 = Span.start sp →
     label_at chunks pre k ≠ Some (Span.label sp)).

(** The open entity begins at position [s] and holds the tokens from [s] to
    the last one read, which all carry its label; the token before [s] does
    not. *)
Definition open_ok (chunks : list ((Z * Z) * string)) (pre : list Token.t)
    (st : merge_state) (s : Z) (l : string) : Prop :=
  ∃ toks first final,
    entity st = Entity.mk (Some l) (Some toks) ∧
    head toks = Some first ∧ last toks = Some final ∧
    Token.i first = s ∧ Token.i final = Z.of_nat (length pre) - 1 ∧
    0 ≤ s < Z.of_nat (length pre) ∧
    (∀ k : nat, s ≤ Z.of_nat k < Z.of_nat (length pre) →
       label_at chunks pre k = Some l) ∧
    (∀ k : nat, Z.of_nat k + 1 = s → label_at chunks pre k ≠ Some l).

Definition merge_runs (chunks : list ((Z * Z) * string)) (pre : list Token.t)
    (st : merge_state) : Prop :=
  ∃ spans,
    mapM to_spacy_ent (entities st) = Some spans ∧
    if inside_entity st then
      ∃ s l, open_ok chunks pre st s l ∧ closed_ok chunks pre s spans
    else
      closed_ok chunks pre (Z.of_nat (length pre)) spans ∧
      ∀ k : nat, Z.of_nat k + 1 = Z.of_nat (length pre) →
        label_at chunks pre k = None.

(** The number of tokens that the spans cover. *)
Definition span_total (spans : list Span.t) : Z :=
  foldr Z.add 0 ((λ sp, Span.end_ sp - Span.start sp) <$> spans).

(** ** A small world to run the definitions in

    A tokenizer that splits at blanks, two labels, and files whose content
    is fixed; the file [broken.xml] cannot be parsed. *)

Module Example.
Definition flush_word (cur : option (Z * string)) : list (Z * string) :=
  match cur with
  | Some w => [w]
  | None => []
  end.

Fixpoint split_ws (s : string) (pos : Z) (cur : option (Z * string))
    : list (Z * string) :=
  match s with
  | "" => flush_word cur
  | String c s' =>
      if decide (c = " "%char) then flush_word cur ++ split_ws s' (pos + 1) None
      else
        split_ws s' (pos + 1)
          (Some (match cur with
                 | Some (st, w) => (st, w +:+ String c "")
                 | None => (pos, String c "")
                 end))
  end.

Definition tokenize (text : string) : list Token.t :=
  imap (λ k w, Token.mk (Z.of_nat k) w.1 w.2) (split_ws text 0 None).

Definition ner_label (name : string) : string :=
  if decide (name = "persName") then "PER" else "LOC".

(** [<reg>Bonjour <persName>Jean</persName></reg>] *)
Definition soup_jean : PageElement :=
  Tag "[document]"
    [Tag "TEI"
       [Tag "reg" [NavigableString "Bonjour "; Tag "persName" [NavigableString "Jean"]]]].

(** [<reg><placeName>Paris</placeName> est beau</reg>] *)
Definition soup_paris : PageElement :=
  Tag "[document]"
    [Tag "reg" [Tag "placeName" [NavigableString "Paris"]; NavigableString " est beau"]].

(** [<reg><persName></persName></reg>] *)
Definition soup_empty_name : PageElement :=
  Tag "[document]" [Tag "reg" [Tag "persName" []]].

(** [<reg><persName></persName><placeName></placeName></reg>] *)
Definition soup_two_empty : PageElement :=
  Tag "[document]" [Tag "reg" [Tag "persName" []; Tag "placeName" []]].

Definition file_content (path : string) : PageElement :=
  let name := path_name path in
  if decide (name = "jean.xml") then soup_jean
  else if decide (name = "empty.xml") then soup_empty_name
  else if decide (name = "two_empty.xml") then soup_two_empty
  else soup_paris.

Definition world (listing : list string) : World := {|
  tei_element_to_ner_label := ner_label;
  nlp_model_fr := λ text, Some (Doc.mk (tokenize text) ∅ []);
  extract_metadata_from_tei := λ _,
    Some {[ "author" := Some "Corneille"; "title" := Some "Le Cid";
            "date" := Some "1637" ]};
  read_soup := λ path,
    if decide (path_name path = "broken.xml") then None
    else Some (file_content path);
  iterdir := λ _, listing;
  sample_files := λ _ n excluded,
    Some (take (Z.to_nat n) (List.filter (λ f, bool_decide (f ∉ excluded)) listing));
  set_iter := elements
|}.

(** A directory of [n] files. *)
Definition numbered_files (n : nat) : list string :=
  (λ k, "NER/" +:+ pretty k +:+ ".xml") <$> seq 0 n.

Definition tok (i idx : Z) (text : string) : Token.t := Token.mk i idx text.

(** A document that carries the path [NER/jean.xml]. *)
Definition doc_jean : Doc.t :=
  Doc.mk [tok 0 0 "Bonjour"; tok 1 8 "Jean"] {[ "path" := Some "NER/jean.xml" ]} [].
End Example.

(** * Lemmas *)

Lemma len_nonneg s : 0 ≤ len s.
Proof. unfold len. lia. Qed.

Lemma length_append s1 s2 :
  String.length (s1 +:+ s2) = (String.length s1 + String.length s2)%nat.
Proof.
  induction s1 as [|c s1 IH]; [reflexivity|].
  change (S (String.length (s1 +:+ s2)) = S (String.length s1 + String.length s2))%nat.
  by rewrite IH.
Qed.

Lemma len_app s1 s2 : len (s1 +:+ s2) = len s1 + len s2.
Proof. unfold len. rewrite length_append. lia. Qed.

Lemma len_zero_empty s : len s = 0 → s = "".
Proof. unfold len. destruct s; simpl; [done|lia]. Qed.

Lemma string_app_cons c s t : String c s +:+ t = String c (s +:+ t).
Proof. reflexivity. Qed.

Lemma string_app_nil_r s : s +:+ "" = s.
Proof.
  induction s as [|c s IH]; [reflexivity|]. by rewrite string_app_cons, IH.
Qed.

Lemma string_app_assoc s t u : (s +:+ t) +:+ u = s +:+ (t +:+ u).
Proof.
  induction s as [|c s IH]; [reflexivity|]. by rewrite !string_app_cons, IH.
Qed.

Lemma get_tag_Some cs ce entities tag :
  get_tag_from_char_index cs ce entities = Some tag →
  ∃ iv, (iv, tag) ∈ entities ∧ contains iv cs ce.
Proof.
  induction entities as [|[[s e] t] rest IH]; simpl; [done|].
  destruct ((s <=? cs) && (e >=? ce)) eqn:Hc.
  - intros [= ->]. exists (s, e). split; [left|].
    apply andb_true_iff in Hc as [H1 H2]. unfold contains; simpl. lia.
  - intros H. destruct (IH H) as (iv & Hin & Hct). exists iv. split; [by right|done].
Qed.

Lemma get_tag_None cs ce entities :
  get_tag_from_char_index cs ce entities = None ↔
  ∀ iv tag, (iv, tag) ∈ entities → ¬ contains iv cs ce.
Proof.
  induction entities as [|[[s e] t] rest IH]; simpl.
  - split; [|done]. intros _ iv tag Hin. by apply not_elem_of_nil in Hin.
  - destruct ((s <=? cs) && (e >=? ce)) eqn:Hc.
    + split; [done|]. intros H. exfalso. apply (H (s, e) t); [left|].
      apply andb_true_iff in Hc as [H1 H2]. unfold contains; simpl. lia.
    + rewrite IH. split.
      * intros H iv tag [[= -> ->]|Hin]%elem_of_cons; [|by eapply H].
        unfold contains; simpl. apply andb_false_iff in Hc. lia.
      * intros H iv tag Hin. apply (H iv tag). by right.
Qed.

Lemma get_tag_is_Some cs ce entities :
  is_Some (get_tag_from_char_index cs ce entities) ↔
  ∃ iv tag, (iv, tag) ∈ entities ∧ contains iv cs ce.
Proof.
  split.
  - intros [tag H]. apply get_tag_Some in H as (iv & ? & ?). by exists iv, tag.
  - intros (iv & tag & Hin & Hct).
    destruct (get_tag_from_char_index cs ce entities) eqn:E; [by eexists|].
    exfalso. rewrite get_tag_None in E. by eapply E.
Qed.

(** * Span Projector *)

(** C3: a token is given a label exactly when some interval of [chunks]
    contains its character range ([start <= token.start] and
    [end >= token.end]), and the label then belongs to a containing interval;
    a token whose range equals an interval is labelled; an interval that the
    token overlaps by one character only, on either edge, does not label it. *)
Theorem C3_projector_containment (chunks : list ((Z * Z) * string)) (token : Token.t) :
  let cs := Token.idx token in
  let ce := Token.idx token + len (Token.text token) in
  (is_Some (token_label chunks token) ↔
     ∃ iv tag, (iv, tag) ∈ chunks ∧ iv.1 ≤ cs ∧ ce ≤ iv.2) ∧
  (∀ tag, token_label chunks token = Some tag →
     ∃ iv, (iv, tag) ∈ chunks ∧ iv.1 ≤ cs ∧ ce ≤ iv.2) ∧
  (∀ tag, ((cs, ce), tag) ∈ chunks → is_Some (token_label chunks token)) ∧
  (∀ s e tag, cs = e - 1 ∧ ce > e → token_label [((s, e), tag)] token = None) ∧
  (∀ s e tag, ce = s + 1 ∧ cs < s → token_label [((s, e), tag)] token = None).
Proof.
  intros cs ce. subst cs ce. unfold token_label.
  split; [|split; [|split; [|split]]].
  - apply get_tag_is_Some.
  - intros tag H. by apply get_tag_Some in H.
  - intros tag Hin. apply get_tag_is_Some. eexists _, tag.
    split; [done|]. unfold contains; simpl. lia.
  - intros s e tag [Heq Hgt]. unfold get_tag_from_char_index.
    destruct (_ && _) eqn:Hc; [|done].
    apply andb_true_iff in Hc. lia.
  - intros s e tag [Heq Hlt]. unfold get_tag_from_char_index.
    destruct (_ && _) eqn:Hc; [|done].
    apply andb_true_iff in Hc. lia.
Qed.

(** C3 at the interval [(0, 5)]: the token ["Paris"] at 0 is labelled, the
    token ["s e"] at 4, which shares one character with the interval, is
    not. *)
Lemma C3_projector_containment_witness :
  is_Some (token_label [((0, 5), "LOC")] (Example.tok 0 0 "Paris")) ∧
  token_label [((0, 5), "LOC")] (Example.tok 1 4 "s e") = None.
Proof.
  split.
  - destruct (C3_projector_containment [((0, 5), "LOC")] (Example.tok 0 0 "Paris"))
      as (_ & _ & Hexact & _).
    apply (Hexact "LOC"). left.
  - destruct (C3_projector_containment [] (Example.tok 1 4 "s e"))
      as (_ & _ & _ & Hright & _).
    apply (Hright 0 5 "LOC"). split; reflexivity.
Defined.

(** Once an interval starts after the end of the range, no later interval of
    a sorted sequence can contain the range. *)
Lemma get_tag_sorted_scan cs ce intervals :
  cs ≤ ce → sorted_by_start intervals →
  get_tag_from_char_index cs ce intervals = sorted_scan cs ce intervals.
Proof.
  intros Hle Hsorted.
  induction Hsorted as [|[[s e] tag] rest Hrest IH Hall]; [done|].
  simpl. destruct (s >? ce) eqn:Hgt.
  - apply Z.gtb_lt in Hgt.
    replace ((s <=? cs) && (e >=? ce)) with false
      by (symmetry; apply andb_false_iff; left; apply Z.leb_gt; lia).
    apply get_tag_None. intros iv t Hin [Hc1 Hc2].
    rewrite Forall_forall in Hall. specialize (Hall _ Hin). simpl in Hall. lia.
  - by rewrite IH.
Qed.

(** C8: for a token of non-empty text and intervals that are sorted by start
    and pairwise non-overlapping, at most one interval contains the token's
    character range; and for every token the first-match scan over all
    intervals returns what the sorted scan returns, which stops at the first
    interval that starts after the token's end. *)
Theorem C8_first_match_is_sorted_scan
    (intervals : list ((Z * Z) * string)) (token : Token.t) :
  sorted_by_start intervals →
  non_overlapping intervals →
  let cs := Token.idx token in
  let ce := Token.idx token + len (Token.text token) in
  (Token.text token ≠ "" →
   ∀ (m n : nat) a b,
     intervals !! m = Some a → intervals !! n = Some b →
     contains a.1 cs ce → contains b.1 cs ce → m = n) ∧
  token_label intervals token = sorted_scan cs ce intervals.
Proof.
  intros Hsorted Hdisj cs ce. split.
  - intros Hne m n a b Ha Hb [Ha1 Ha2] [Hb1 Hb2].
    destruct (decide (m = n)) as [|Hmn]; [done|exfalso].
    assert (0 < len (Token.text token)).
    { pose proof (len_nonneg (Token.text token)).
      destruct (decide (len (Token.text token) = 0)) as [E%len_zero_empty|]; [done|lia]. }
    destruct (Hdisj m n a b Hmn Ha Hb); subst cs ce; lia.
  - apply get_tag_sorted_scan; [|done].
    pose proof (len_nonneg (Token.text token)). lia.
Qed.

(** C8 at the intervals [(0,5)] and [(6,9)] and the token ["est"] at 6. *)
Lemma C8_first_match_is_sorted_scan_witness :
  token_label [((0, 5), "LOC"); ((6, 9), "PER")] (Example.tok 1 6 "est")
  = sorted_scan 6 9 [((0, 5), "LOC"); ((6, 9), "PER")].
Proof.
  refine (proj2 (C8_first_match_is_sorted_scan
            [((0, 5), "LOC"); ((6, 9), "PER")] (Example.tok 1 6 "est") _ _)).
  - repeat constructor; simpl; lia.
  - intros [|[|m]] [|[|n]] a b Hmn Ha Hb; simplify_eq/=; lia.
Defined.

(** * Dictionaries *)

Section PyDictLemmas.
Context {K V : Type} `{EqDecision K}.
Implicit Types (d : list (K * V)) (k : K) (v : V).

Lemma dict_set_keys_in k v d :
  k ∈ dict_keys d → dict_keys (dict_set k v d) = dict_keys d.
Proof.
  unfold dict_keys. induction d as [|[k' v'] d IH]; simpl.
  - by intros ?%not_elem_of_nil.
  - intros Hin. destruct (decide (k = k')) as [->|Hne]; [done|].
    simpl. f_equal. apply IH. by apply elem_of_cons in Hin as [?|?].
Qed.

Lemma dict_set_keys_notin k v d :
  k ∉ dict_keys d → dict_keys (dict_set k v d) = dict_keys d ++ [k].
Proof.
  unfold dict_keys. induction d as [|[k' v'] d IH]; simpl; [done|].
  intros Hnin. apply not_elem_of_cons in Hnin as [Hne Hnin].
  destruct (decide (k = k')); [done|]. simpl. f_equal. by apply IH.
Qed.

Lemma dict_set_keys_elem k k' v d :
  k' ∈ dict_keys (dict_set k v d) ↔ k' = k ∨ k' ∈ dict_keys d.
Proof.
  destruct (decide (k ∈ dict_keys d)) as [Hin|Hnin].
  - rewrite dict_set_keys_in by done. split; [by right|]. by intros [->|?].
  - rewrite dict_set_keys_notin by done. rewrite elem_of_app, list_elem_of_singleton.
    tauto.
Qed.

Lemma dict_set_NoDup k v d :
  NoDup (dict_keys d) → NoDup (dict_keys (dict_set k v d)).
Proof.
  intros Hnd. destruct (decide (k ∈ dict_keys d)) as [Hin|Hnin].
  - by rewrite dict_set_keys_in.
  - rewrite dict_set_keys_notin by done. apply NoDup_app. split; [done|].
    split; [|apply NoDup_singleton].
    intros x Hx ->%list_elem_of_singleton. done.
Qed.

Lemma dict_get_set k v d : dict_get k (dict_set k v d) = Some v.
Proof.
  induction d as [|[k' v'] d IH]; simpl.
  - by rewrite decide_True.
  - destruct (decide (k = k')) as [->|Hne]; simpl.
    + by rewrite decide_True.
    + by rewrite decide_False.
Qed.

Lemma dict_set_elem k v d : (k, v) ∈ dict_set k v d.
Proof.
  induction d as [|[k' v'] d IH]; simpl; [left|].
  destruct (decide (k = k')); [left|by right].
Qed.

Lemma dict_set_length_in k v d :
  k ∈ dict_keys d → length (dict_set k v d) = length d.
Proof.
  intros Hin. apply (dict_set_keys_in k v) in Hin.
  apply (f_equal length) in Hin. unfold dict_keys in Hin.
  by rewrite !length_fmap in Hin.
Qed.

Lemma dict_elem_key k v d : (k, v) ∈ d → k ∈ dict_keys d.
Proof. intros Hin. unfold dict_keys. apply list_elem_of_fmap. by exists (k, v). Qed.
End PyDictLemmas.

(** * Flattener *)

Section FlattenerLemmas.
Context `{W : World}.
Implicit Types (st : string * list ((Z * Z) * string)).

Lemma flat_inv_init : flat_inv ("", []).
Proof. split; [constructor|]. by intros iv ?%not_elem_of_nil. Qed.

Lemma flat_inv_grow output_text extra chunks :
  flat_inv (output_text, chunks) → flat_inv (output_text +:+ extra, chunks).
Proof.
  intros [Hnd Hb]. split; [done|]. intros iv Hin. simpl in *.
  destruct (Hb iv Hin). rewrite len_app. pose proof (len_nonneg extra). lia.
Qed.

Lemma flat_inv_node st node : flat_inv st → flat_inv (flatten_node st node).
Proof.
  destruct st as [output_text chunks]. intros Hinv.
  destruct node as [s|name cs]; [by apply flat_inv_grow|].
  unfold flatten_node. generalize (Node.text (Tag name cs)). intros t.
  destruct (is_annotation name); [|by apply flat_inv_grow].
  destruct Hinv as [Hnd Hb]. pose proof (len_nonneg t). split; simpl in *.
  - by apply dict_set_NoDup.
  - intros iv [->|Hin]%dict_set_keys_elem; simpl.
    + rewrite !len_app. lia.
    + destruct (Hb iv Hin). rewrite len_app. lia.
Qed.

Lemma flat_inv_nodes nodes st :
  flat_inv st → flat_inv (foldl flatten_node st nodes).
Proof.
  revert st. induction nodes as [|node nodes IH]; intros st Hinv; [done|].
  simpl. by apply IH, flat_inv_node.
Qed.

Lemma flat_inv_elem st elem : flat_inv st → flat_inv (flatten_elem st elem).
Proof.
  intros Hinv. unfold flatten_elem.
  pose proof (flat_inv_nodes (Node.contents elem) st Hinv) as Hn.
  destruct (foldl flatten_node st (Node.contents elem)) as [output_text chunks].
  by apply flat_inv_grow.
Qed.

Lemma flat_inv_elems regs st :
  flat_inv st → flat_inv (foldl flatten_elem st regs).
Proof.
  revert st. induction regs as [|elem regs IH]; intros st Hinv; [done|].
  simpl. by apply IH, flat_inv_elem.
Qed.

Lemma flat_inv_flatten soup : flat_inv (flatten soup).
Proof. apply flat_inv_elems, flat_inv_init. Qed.
End FlattenerLemmas.

(** A label found for a token of non-empty text comes from an interval of
    positive length; intervals of length zero can be left out. *)
Lemma token_label_positive_intervals chunks token :
  Token.text token ≠ "" →
  token_label chunks token =
  token_label (List.filter (λ kv, negb (kv.1.1 =? kv.1.2)) chunks) token.
Proof.
  intros Hne. unfold token_label.
  assert (0 < len (Token.text token)) as Hpos.
  { pose proof (len_nonneg (Token.text token)).
    destruct (decide (len (Token.text token) = 0)) as [E%len_zero_empty|]; [done|lia]. }
  induction chunks as [|[[s e] tag] rest IH]; [done|]. simpl.
  destruct ((s <=? Token.idx token) && _) eqn:Hc.
  - apply andb_true_iff in Hc as [H1 H2].
    replace (s =? e) with false by (symmetry; apply Z.eqb_neq; lia).
    simpl. replace (s <=? Token.idx token) with true by done.
    by rewrite H2.
  - destruct (s =? e); simpl; [done|]. by rewrite Hc.
Qed.

(** C6, as the code has it: the interval of an annotation element is put
    into [chunks] whatever its text, so an element with empty text leaves an
    interval with [start = end] there; every interval of [chunks] has
    [start <= end]; and an interval of length zero labels no token of
    non-empty text: such tokens get the label they would get without it. *)
Theorem C6_zero_length_interval_recorded `{W : World} :
  (∀ st name cs,
     is_annotation name = true →
     ((len st.1, len st.1 + len (Node.text (Tag name cs))),
      tei_element_to_ner_label name) ∈ (flatten_node st (Tag name cs)).2) ∧
  (∀ soup iv tag, (iv, tag) ∈ (flatten soup).2 → iv.1 ≤ iv.2) ∧
  (∀ chunks token,
     Token.text token ≠ "" →
     token_label chunks token =
     token_label (List.filter (λ kv, negb (kv.1.1 =? kv.1.2)) chunks) token).
Proof.
  split; [|split].
  - intros [output_text chunks] name cs Hann. unfold flatten_node.
    generalize (Node.text (Tag name cs)). intros t. rewrite Hann.
    simpl. rewrite len_app. apply dict_set_elem.
  - intros soup iv tag Hin. apply dict_elem_key in Hin.
    by apply (flat_inv_flatten soup) in Hin as [? _].
  - apply token_label_positive_intervals.
Qed.

(** C6 at [<reg><persName></persName></reg>] and at the token ["est"]. *)
Lemma C6_zero_length_interval_recorded_witness :
  ((0, 0), "PER") ∈
    (flatten_node (W := Example.world []) ("", []) (Tag "persName" [])).2 ∧
  token_label [((6, 6), "PER"); ((6, 9), "LOC")] (Example.tok 1 6 "est") = Some "LOC".
Proof.
  destruct (C6_zero_length_interval_recorded (W := Example.world [])) as (H1 & _ & H3).
  split.
  - exact (H1 ("", []) "persName" [] eq_refl).
  - rewrite (H3 [((6, 6), "PER"); ((6, 9), "LOC")] (Example.tok 1 6 "est")); [|done].
    reflexivity.
Defined.

(** C6 as stated fails: the flattening of [<reg><persName></persName></reg>]
    hands the interval [(0, 0)] to the projector. *)
Lemma C6_counterexample :
  (flatten (W := Example.world []) Example.soup_empty_name).2 = [((0, 0), "PER")].
Proof. reflexivity. Qed.

(** The steps of the first loop only add to the text and keep the keys. *)
Section FlatSteps.
Context `{W : World}.
Implicit Types (st : string * list ((Z * Z) * string)).

Lemma flatten_node_len st node :
  len (flatten_node st node).1 = len st.1 + len (Node.text node).
Proof.
  destruct st as [output_text chunks]. unfold flatten_node.
  destruct node as [s|name cs]; [apply len_app|].
  generalize (Node.text (Tag name cs)). intros t.
  destruct (is_annotation name); apply len_app.
Qed.

Lemma flatten_node_keys st node k :
  k ∈ dict_keys st.2 → k ∈ dict_keys (flatten_node st node).2.
Proof.
  destruct st as [output_text chunks]. unfold flatten_node.
  destruct node as [s|name cs]; [done|].
  generalize (Node.text (Tag name cs)). intros t.
  destruct (is_annotation name); [|done]. simpl. intros Hk.
  apply dict_set_keys_elem. by right.
Qed.

Lemma flatten_node_annotation_key st name cs :
  is_annotation name = true →
  interval_of st (Tag name cs) ∈ dict_keys (flatten_node st (Tag name cs)).2.
Proof.
  intros Hann. destruct st as [output_text chunks].
  unfold flatten_node, interval_of.
  generalize (Node.text (Tag name cs)). intros t. rewrite Hann. simpl.
  rewrite len_app. apply dict_set_keys_elem. by left.
Qed.

Lemma flat_steps_grow st st' :
  rtc flat_step st st' →
  len st.1 ≤ len st'.1 ∧ ∀ k, k ∈ dict_keys st.2 → k ∈ dict_keys st'.2.
Proof.
  induction 1 as [st|st st1 st' Hstep _ [IHlen IHkeys]]; [done|].
  destruct Hstep as [st node|output_text chunks].
  - split.
    + rewrite flatten_node_len in IHlen. pose proof (len_nonneg (Node.text node)). lia.
    + intros k Hk. by apply IHkeys, flatten_node_keys.
  - simpl in *. split; [|done]. rewrite len_app in IHlen.
    pose proof (len_nonneg " "). lia.
Qed.

Lemma flat_steps_nodes nodes st : rtc flat_step st (foldl flatten_node st nodes).
Proof.
  revert st. induction nodes as [|node nodes IH]; intros st; [done|].
  simpl. eapply rtc_l; [apply flat_step_node|apply IH].
Qed.

Lemma flat_steps_elem st elem : rtc flat_step st (flatten_elem st elem).
Proof.
  unfold flatten_elem. pose proof (flat_steps_nodes (Node.contents elem) st) as Hn.
  destruct (foldl flatten_node st (Node.contents elem)) as [output_text chunks].
  eapply rtc_r; [exact Hn|apply flat_step_blank].
Qed.

Lemma flat_steps_elems regs st : rtc flat_step st (foldl flatten_elem st regs).
Proof.
  revert st. induction regs as [|elem regs IH]; intros st; [done|].
  simpl. etrans; [apply flat_steps_elem|apply IH].
Qed.
End FlatSteps.

(** C10: [chunks] is keyed by the offset pair, so the intervals of a
    flattened document are pairwise distinct and each carries one category.
    An annotation element whose interval is already a key of [chunks] when
    the loop reaches it has empty text, that interval has length zero, and
    the assignment keeps the number of entries and leaves the element's own
    category under the key. Two annotation elements, the second read any
    number of steps after the first, have the same interval only when both
    have empty text and no text was written in between; the entry then
    carries the category of the second. *)
Theorem C10_chunks_keyed_by_offsets `{W : World} (soup : PageElement) :
  NoDup (dict_keys (flatten soup).2) ∧
  (∀ regs_before elem regs_after nodes_before name cs nodes_after,
     Node.findAll "reg" soup = regs_before ++ elem :: regs_after →
     Node.contents elem = nodes_before ++ Tag name cs :: nodes_after →
     is_annotation name = true →
     let st := foldl flatten_node (flatten_regs regs_before) nodes_before in
     let key := interval_of st (Tag name cs) in
     let st' := flatten_node st (Tag name cs) in
     key ∈ dict_keys st.2 →
     Node.text (Tag name cs) = "" ∧
     key.1 = key.2 ∧
     length st'.2 = length st.2 ∧
     dict_keys st'.2 = dict_keys st.2 ∧
     dict_get key st'.2 = Some (tei_element_to_ner_label name)) ∧
  (∀ st1 name1 cs1 st2 name2 cs2,
     is_annotation name1 = true → is_annotation name2 = true →
     rtc flat_step (flatten_node st1 (Tag name1 cs1)) st2 →
     interval_of st1 (Tag name1 cs1) = interval_of st2 (Tag name2 cs2) →
     let st2' := flatten_node st2 (Tag name2 cs2) in
     Node.text (Tag name1 cs1) = "" ∧ Node.text (Tag name2 cs2) = "" ∧
     len st2.1 = len st1.1 ∧
     length st2'.2 = length st2.2 ∧
     dict_get (interval_of st2 (Tag name2 cs2)) st2'.2
       = Some (tei_element_to_ner_label name2)).
Proof.
  split; [apply flat_inv_flatten|]. split.
  - intros regs_before elem regs_after nodes_before name cs nodes_after _ _ Hann.
    intros st key st' Hin.
    assert (flat_inv st) as [_ Hb] by apply flat_inv_nodes, flat_inv_elems, flat_inv_init.
    subst st'. unfold flatten_node. subst key. unfold interval_of in *. revert Hin.
    generalize (Node.text (Tag name cs)). intros t Hin.
    destruct st as [output_text chunks]. rewrite Hann. simpl in *.
    rewrite len_app.
    destruct (Hb _ Hin) as [_ Hle]. simpl in Hle.
    pose proof (len_nonneg t).
    split; [apply len_zero_empty; lia|]. split; [lia|].
    split; [by apply dict_set_length_in|].
    split; [by apply dict_set_keys_in|]. apply dict_get_set.
  - intros st1 name1 cs1 st2 name2 cs2 Hann1 Hann2 Hsteps Heq st2'.
    destruct (flat_steps_grow _ _ Hsteps) as [Hlen Hkeys].
    rewrite flatten_node_len in Hlen.
    pose proof (flatten_node_annotation_key st1 name1 cs1 Hann1) as Hk1.
    apply Hkeys in Hk1. rewrite Heq in Hk1.
    subst st2'. unfold flatten_node. unfold interval_of in *. revert Heq Hlen Hk1.
    generalize (Node.text (Tag name1 cs1)). generalize (Node.text (Tag name2 cs2)).
    intros t2 t1 Heq Hlen Hk1.
    destruct st2 as [output_text chunks]. rewrite Hann2. simpl in *.
    rewrite len_app.
    pose proof (len_nonneg t1). pose proof (len_nonneg t2).
    assert (len output_text = len st1.1 ∧ len t1 = len t2) as [Ho Ht]
      by (simplify_eq; lia).
    split; [apply len_zero_empty; lia|]. split; [apply len_zero_empty; lia|].
    split; [done|]. split; [by apply dict_set_length_in|]. apply dict_get_set.
Qed.

(** C10 at [<reg><persName></persName><placeName></placeName></reg>]: both
    elements have the interval [(0, 0)], and the entry carries the label of
    the second. *)
Lemma C10_chunks_keyed_by_offsets_witness :
  dict_get (0, 0)
    (flatten_node (W := Example.world [])
       (foldl (flatten_node (W := Example.world [])) ("", []) [Tag "persName" []])
       (Tag "placeName" [])).2
  = Some "LOC".
Proof.
  refine (proj2 (proj2 (proj2 (proj2
    (proj1 (proj2 (C10_chunks_keyed_by_offsets (W := Example.world []) Example.soup_two_empty))
       [] (Tag "reg" [Tag "persName" []; Tag "placeName" []]) []
       [Tag "persName" []] "placeName" [] [] eq_refl eq_refl eq_refl _))))).
  left.
Defined.

(** * Entity Merger *)

Lemma spans_good_nil : spans_good [].
Proof. split; [constructor|]. split; intros; simplify_eq/=. Qed.

Lemma spans_good_snoc spans sp :
  spans_good spans →
  Span.start sp < Span.end_ sp →
  Forall (λ a, Span.end_ a ≤ Span.start sp) spans →
  (∀ a, last spans = Some a →
     Span.end_ a = Span.start sp → Span.label a ≠ Span.label sp) →
  spans_good (spans ++ [sp]).
Proof.
  intros (Hpos & Hord & Hadj) Hsp Hbound Hlast. split; [|split].
  - apply Forall_app. split; [done|]. by constructor.
  - intros m n a b Hmn Ha Hb.
    apply lookup_snoc_Some in Hb as [[Hn Hb]|[Hn <-]].
    + rewrite lookup_app_l in Ha by lia. exact (Hord m n a b Hmn Ha Hb).
    + rewrite lookup_app_l in Ha by lia.
      rewrite Forall_forall in Hbound. apply Hbound.
      by eapply list_elem_of_lookup_2.
  - intros m a b Ha Hb.
    apply lookup_snoc_Some in Hb as [[Hn Hb]|[Hn <-]].
    + rewrite lookup_app_l in Ha by lia. exact (Hadj m a b Ha Hb).
    + rewrite lookup_app_l in Ha by lia. apply Hlast.
      rewrite last_lookup. by replace (pred (length spans)) with m by lia.
Qed.

Lemma mapM_snoc {A B} (f : A → option B) l k x y :
  mapM f l = Some k → f x = Some y → mapM f (l ++ [x]) = Some (k ++ [y]).
Proof.
  intros Hl Hx. apply mapM_Some. apply Forall2_app; [by apply mapM_Some|].
  by constructor.
Qed.

Lemma merge_inv_init : merge_inv 0 merge_init.
Proof.
  exists []. split; [done|]. split; [apply spans_good_nil|]. simpl. constructor.
Qed.

(** Closing the open entity: its span is appended to the good spans. *)
Lemma merge_inv_close n st :
  merge_inv n st → inside_entity st = true →
  ∃ spans l toks first,
    entity st = Entity.mk (Some l) (Some toks) ∧
    mapM to_spacy_ent (entities st ++ [entity st])
      = Some (spans ++ [Span.mk (Token.i first) n l]) ∧
    mapM to_spacy_ent (entities st) = Some spans ∧
    spans_good (spans ++ [Span.mk (Token.i first) n l]) ∧
    Token.i first ≤ n - 1 ∧
    Forall (λ sp, Span.end_ sp ≤ Token.i first) spans.
Proof.
  intros (spans & Hm & Hgood & Hin) Hinside. rewrite Hinside in Hin.
  destruct Hin as (l & toks & first & final & He & Hhd & Hlst & Hle & Hfin & Hb & Hadj).
  exists spans, l, toks, first. split; [done|].
  assert (to_spacy_ent (entity st) = Some (Span.mk (Token.i first) n l)) as Hconv.
  { rewrite He. unfold to_spacy_ent. simpl. rewrite Hhd. simpl. rewrite Hlst. simpl.
    do 2 f_equal. lia. }
  split; [by apply mapM_snoc|]. split; [done|].
  split; [|done]. apply spans_good_snoc; simpl; [done|lia|done|done].
Qed.

Lemma merge_step_inv chunks n st token :
  merge_inv n st → Token.i token = n →
  ∃ st', merge_step chunks st token = Some st' ∧ merge_inv (n + 1) st' ∧
         inside_entity st' = bool_decide (is_Some (token_label chunks token)).
Proof.
  intros Hinv Hi. unfold merge_step.
  destruct (inside_entity st) eqn:Hinside.
  - destruct (merge_inv_close n st Hinv Hinside)
      as (spans & l & toks & first & He & Hconv & Hm & Hgood & Hle & Hb).
    destruct (token_label chunks token) as [l'|] eqn:Hlabel.
    + pose proof Hconv as Hconv'. rewrite He in Hconv'.
      rewrite He. simpl. destruct (decide (l = l')) as [->|Hne].
      * eexists. split; [done|]. split; [|done].
        destruct Hinv as (spans0 & Hm0 & Hgood0 & Hin). rewrite Hinside in Hin.
        destruct Hin as (l0 & toks0 & first0 & final0 & He0 & Hhd & Hlst & Hle0 & Hfin & Hb0 & Hadj).
        rewrite He in He0. simplify_eq.
        exists spans0. split; [done|]. split; [done|]. simpl.
        exists l0, (toks0 ++ [token]), first0, token.
        split; [done|]. split; [by destruct toks0|].
        split; [apply last_snoc|]. split; [lia|]. split; [lia|]. done.
      * eexists. split; [done|]. split; [|done].
        eexists. split; [exact Hconv'|]. split; [done|]. simpl.
        exists l', [token], token, token. split; [done|]. split; [done|].
        split; [done|]. split; [lia|]. split; [lia|]. split.
        -- apply Forall_app. split; [|by constructor; simpl; [lia|]].
           eapply Forall_impl; [exact Hb|]. simpl. intros; lia.
        -- intros sp. rewrite last_snoc. intros [= <-]. simpl. done.
    + eexists. split; [done|]. split; [|done].
      eexists. split; [exact Hconv|]. split; [done|]. simpl.
      apply Forall_app. split; [|by constructor; simpl; [lia|]].
      eapply Forall_impl; [exact Hb|]. simpl. intros; lia.
  - destruct Hinv as (spans & Hm & Hgood & Hout). rewrite Hinside in Hout.
    destruct (token_label chunks token) as [l'|] eqn:Hlabel.
    + eexists. split; [done|]. split; [|done].
      exists spans. split; [done|]. split; [done|]. simpl.
      exists l', [token], token, token. split; [done|]. split; [done|].
      split; [done|]. split; [lia|]. split; [lia|]. split.
      * eapply Forall_impl; [exact Hout|]. simpl. intros; lia.
      * intros sp Hlast Hend. apply last_Some_elem_of in Hlast.
        rewrite Forall_forall in Hout. specialize (Hout _ Hlast). simpl in Hout. lia.
    + exists st. split; [done|]. split; [|done].
      exists spans. split; [done|]. split; [done|]. rewrite Hinside.
      eapply Forall_impl; [exact Hout|]. simpl. intros; lia.
Qed.

Lemma merge_loop_app chunks st doc1 doc2 :
  merge_loop chunks st (doc1 ++ doc2)
  = st' ← merge_loop chunks st doc1; merge_loop chunks st' doc2.
Proof.
  revert st. induction doc1 as [|token doc1 IH]; intros st; [done|].
  simpl. destruct (merge_step chunks st token) as [st'|]; simpl; [apply IH|done].
Qed.

Lemma merge_loop_inv chunks doc n st :
  merge_inv n st →
  (∀ (k : nat) token, doc !! k = Some token → Token.i token = n + Z.of_nat k) →
  ∃ st', merge_loop chunks st doc = Some st' ∧
         merge_inv (n + Z.of_nat (length doc)) st'.
Proof.
  revert n st. induction doc as [|token doc IH]; intros n st Hinv Hidx.
  - exists st. split; [done|]. simpl. by replace (n + Z.of_nat 0) with n by lia.
  - destruct (merge_step_inv chunks n st token Hinv) as (st1 & Hstep & Hinv1 & _).
    { rewrite (Hidx 0%nat token eq_refl). lia. }
    destruct (IH (n + 1) st1 Hinv1) as (st' & Hloop & Hinv').
    { intros k t Hk. rewrite (Hidx (S k) t Hk). lia. }
    exists st'. simpl. rewrite Hstep. simpl. split; [done|].
    by replace (n + Z.of_nat (S (length doc))) with (n + 1 + Z.of_nat (length doc)) by lia.
Qed.

Lemma doc_indexed_lookup doc (k : nat) token :
  doc_indexed doc → doc !! k = Some token → Token.i token = Z.of_nat k.
Proof.
  unfold doc_indexed. intros Hdoc Hk.
  assert ((Token.i <$> doc) !! k = Some (Token.i token)) as Hl
    by (by rewrite list_lookup_fmap, Hk).
  rewrite Hdoc, list_lookup_fmap in Hl.
  destruct (seq 0 (length doc) !! k) as [k'|] eqn:Hs; [|done].
  apply lookup_seq in Hs as [-> _]. by simplify_eq/=.
Qed.

Lemma merge_loop_indexed chunks doc :
  doc_indexed doc →
  ∃ st, merge_loop chunks merge_init doc = Some st ∧
        merge_inv (Z.of_nat (length doc)) st.
Proof.
  intros Hdoc.
  destruct (merge_loop_inv chunks doc 0 merge_init merge_inv_init) as (st & Hl & Hinv).
  { intros k token Hk. rewrite (doc_indexed_lookup doc k token); [lia|done..]. }
  exists st. split; [done|]. by replace (Z.of_nat (length doc)) with (0 + Z.of_nat (length doc)) by lia.
Qed.

(** C7: the spans that the merger emits for a document whose tokens are
    numbered from zero have [start < end], are ordered by [start], do not
    overlap (each ends no later than any later one begins), and two
    neighbours that touch have different labels. *)
Theorem C7_spans_ordered_disjoint chunks (doc : list Token.t) :
  doc_indexed doc →
  ∃ spans,
    entities_to_add chunks doc = Some spans ∧
    (∀ sp, sp ∈ spans → Span.start sp < Span.end_ sp) ∧
    (∀ (m n : nat) a b, (m < n)%nat →
       spans !! m = Some a → spans !! n = Some b →
       Span.end_ a ≤ Span.start b ∧ Span.start a < Span.start b) ∧
    (∀ (m : nat) a b,
       spans !! m = Some a → spans !! S m = Some b →
       ¬ (Span.label a = Span.label b ∧ Span.end_ a = Span.start b)).
Proof.
  intros Hdoc.
  destruct (merge_loop_indexed chunks doc Hdoc)
    as (st & Hloop & spans & Hm & (Hpos & Hord & Hadj) & _).
  exists spans. unfold entities_to_add. rewrite Hloop. simpl.
  split; [done|]. rewrite Forall_forall in Hpos. split; [done|]. split.
  - intros m n a b Hmn Ha Hb. pose proof (Hord m n a b Hmn Ha Hb).
    pose proof (Hpos a (list_elem_of_lookup_2 _ _ _ Ha)). lia.
  - intros m a b Ha Hb [Hl He]. by apply (Hadj m a b Ha Hb He).
Qed.

(** C7 at the tokens of ["Paris est beau"], labelled by [(0,5) -> LOC]. *)
Lemma C7_spans_ordered_disjoint_witness :
  ∃ spans,
    entities_to_add [((0, 5), "LOC")]
      [Example.tok 0 0 "Paris"; Example.tok 1 6 "est"; Example.tok 2 10 "beau"]
    = Some spans ∧
    ∀ sp, sp ∈ spans → Span.start sp < Span.end_ sp.
Proof.
  destruct (C7_spans_ordered_disjoint [((0, 5), "LOC")]
    [Example.tok 0 0 "Paris"; Example.tok 1 6 "est"; Example.tok 2 10 "beau"] eq_refl)
    as (spans & Hs & Hpos & _).
  exists spans. by split.
Defined.

(** The example of the specification: one span [{0, 1, LOCATION}]. *)
Example merge_paris :
  entities_to_add [((0, 5), "LOC")]
    [Example.tok 0 0 "Paris"; Example.tok 1 6 "est"; Example.tok 2 10 "beau"]
  = Some [Span.mk 0 1 "LOC"].
Proof. reflexivity. Qed.

(** Two tokens at 3 and 4: one span [3,5) for one label, [3,4) and [4,5)
    for two, when a token without label follows. *)
Example merge_adjacent_same :
  entities_to_add [((10, 20), "PER")]
    [Example.tok 3 10 "Jean"; Example.tok 4 15 "Petit"; Example.tok 5 21 "dort"]
  = Some [Span.mk 3 5 "PER"].
Proof. reflexivity. Qed.

Example merge_adjacent_change :
  entities_to_add [((10, 14), "PER"); ((15, 20), "LOC")]
    [Example.tok 3 10 "Jean"; Example.tok 4 15 "Paris"; Example.tok 5 21 "dort"]
  = Some [Span.mk 3 4 "PER"; Span.mk 4 5 "LOC"].
Proof. reflexivity. Qed.

(** C1, what the code does: when the last token of a document carries a
    label, the loop ends with the entity still open and nothing appends it
    to [entities]. No emitted span reaches the last token; closing the open
    entity after the loop would add exactly one more span, which covers
    it. *)
Theorem C1_trailing_run_not_emitted chunks (doc : list Token.t) (token : Token.t) :
  doc_indexed (doc ++ [token]) →
  is_Some (token_label chunks token) →
  ∃ spans sp,
    entities_to_add chunks (doc ++ [token]) = Some spans ∧
    (∀ a, a ∈ spans → Span.end_ a ≤ Token.i token) ∧
    entities_with_flush chunks (doc ++ [token]) = Some (spans ++ [sp]) ∧
    Span.start sp ≤ Token.i token < Span.end_ sp.
Proof.
  intros Hdoc Hlabel.
  assert (Token.i token = Z.of_nat (length doc)) as Hi.
  { apply (doc_indexed_lookup (doc ++ [token])); [done|]. apply list_lookup_middle. done. }
  destruct (merge_loop_inv chunks doc 0 merge_init merge_inv_init) as (st1 & Hl1 & Hinv1).
  { intros k t Hk. rewrite (doc_indexed_lookup (doc ++ [token]) k t); [lia|done|].
    by apply lookup_app_l_Some. }
  destruct (merge_step_inv chunks _ st1 token Hinv1) as (st & Hstep & Hinv & Hinside);
    [lia|].
  rewrite bool_decide_eq_true_2 in Hinside by done.
  destruct (merge_inv_close _ st Hinv Hinside)
    as (spans & l & toks & first & He & Hflush & Hm & _ & Hle & Hb).
  exists spans, (Span.mk (Token.i first) (0 + Z.of_nat (length doc) + 1) l).
  unfold entities_to_add, entities_with_flush, merge_flush.
  rewrite merge_loop_app, Hl1. simpl. rewrite Hstep. simpl. rewrite Hinside.
  split; [done|]. split; [|split; [done|simpl; lia]].
  intros a Ha. rewrite Forall_forall in Hb. specialize (Hb a Ha). simpl in Hb. lia.
Qed.

(** C1 at [<reg>Bonjour <persName>Jean</persName></reg>]: the text is
    ["Bonjour Jean "], its last token is ["Jean"] and lies in the interval
    [(8, 12)]; no entity is emitted. *)
Lemma C1_trailing_run_not_emitted_witness :
  ∃ spans sp,
    entities_to_add [((8, 12), "PER")]
      [Example.tok 0 0 "Bonjour"; Example.tok 1 8 "Jean"] = Some spans ∧
    (∀ a, a ∈ spans → Span.end_ a ≤ 1) ∧
    entities_with_flush [((8, 12), "PER")]
      [Example.tok 0 0 "Bonjour"; Example.tok 1 8 "Jean"] = Some (spans ++ [sp]) ∧
    Span.start sp ≤ 1 < Span.end_ sp.
Proof.
  apply (C1_trailing_run_not_emitted [((8, 12), "PER")]
           [Example.tok 0 0 "Bonjour"] (Example.tok 1 8 "Jean")).
  - reflexivity.
  - by eexists.
Defined.

Example merge_jean :
  flatten (W := Example.world []) Example.soup_jean
    = ("Bonjour Jean ", [((8, 12), "PER")]) ∧
  Example.tokenize "Bonjour Jean "
    = [Example.tok 0 0 "Bonjour"; Example.tok 1 8 "Jean"] ∧
  entities_to_add [((8, 12), "PER")]
    [Example.tok 0 0 "Bonjour"; Example.tok 1 8 "Jean"] = Some [] ∧
  entities_with_flush [((8, 12), "PER")]
    [Example.tok 0 0 "Bonjour"; Example.tok 1 8 "Jean"] = Some [Span.mk 1 2 "PER"] ∧
  Doc.ents <$> tei2spacy_simple (W := Example.world []) "jean.xml" = Some [].
Proof. repeat split; reflexivity. Qed.

(** ** The second loop never raises *)

Lemma entity_closed_to_spacy_ent e : entity_closed e → is_Some (to_spacy_ent e).
Proof.
  intros (l & toks & -> & Hne). unfold to_spacy_ent. simpl.
  destruct (head_is_Some toks) as [_ Hh]. destruct (Hh Hne) as [first ->].
  destruct (last_is_Some toks) as [_ Hl]. destruct (Hl Hne) as [final ->].
  by eexists.
Qed.

Lemma merge_step_safe chunks st token :
  merge_safe st → ∃ st', merge_step chunks st token = Some st' ∧ merge_safe st'.
Proof.
  intros [Hall Hopen]. unfold merge_step.
  destruct (inside_entity st) eqn:Hinside.
  - destruct (Hopen eq_refl) as (l & toks & He & Hne).
    destruct (token_label chunks token) as [l'|].
    + rewrite He. simpl. destruct (decide (l = l')) as [->|Hd].
      * eexists. split; [done|]. split; [done|]. intros _.
        exists l', (toks ++ [token]). split; [done|]. by destruct toks.
      * eexists. split; [done|]. split; simpl.
        -- apply Forall_app. split; [done|]. constructor; [|done]. by exists l, toks.
        -- intros _. by exists l', [token].
    + eexists. split; [done|]. split; simpl; [|done].
      apply Forall_app. split; [done|]. constructor; [|done]. by exists l, toks.
  - destruct (token_label chunks token) as [l'|].
    + eexists. split; [done|]. split; [done|]. intros _. by exists l', [token].
    + exists st. split; [done|]. split; [done|]. by rewrite Hinside.
Qed.

Lemma merge_loop_safe chunks doc st :
  merge_safe st → ∃ st', merge_loop chunks st doc = Some st' ∧ merge_safe st'.
Proof.
  revert st. induction doc as [|token doc IH]; intros st Hsafe; [by exists st|].
  destruct (merge_step_safe chunks st token Hsafe) as (st1 & Hstep & Hsafe1).
  destruct (IH st1 Hsafe1) as (st' & Hloop & Hsafe').
  exists st'. simpl. rewrite Hstep. by split.
Qed.

Lemma entities_to_add_total chunks doc : is_Some (entities_to_add chunks doc).
Proof.
  destruct (merge_loop_safe chunks doc merge_init) as (st & Hloop & Hall & _).
  { split; [constructor|done]. }
  unfold entities_to_add. rewrite Hloop. simpl. apply mapM_is_Some.
  eapply Forall_impl; [exact Hall|]. intros e. apply entity_closed_to_spacy_ent.
Qed.

(** * Document Assembler *)

Lemma path_name_from_plain name acc :
  has_separator name = false → path_name_from name acc = acc +:+ name.
Proof.
  revert acc. induction name as [|c name IH]; intros acc Hplain; simpl.
  - by rewrite string_app_nil_r.
  - simpl in Hplain. apply orb_false_iff in Hplain as [Hc Hplain].
    apply bool_decide_eq_false in Hc. rewrite decide_False by done.
    rewrite IH by done. by rewrite string_app_assoc.
Qed.

Lemma path_name_from_dir dir name acc :
  path_name_from (dir +:+ "/" +:+ name) acc = path_name_from name "".
Proof.
  revert acc. induction dir as [|c dir IH]; intros acc; [done|].
  rewrite string_app_cons. simpl. destruct (decide (c = "/"%char)); apply IH.
Qed.

(** The file name is what follows the last separator of the path. *)
Lemma path_name_last dir name :
  has_separator name = false → path_name (dir +:+ "/" +:+ name) = name.
Proof.
  intros Hplain. unfold path_name.
  by rewrite path_name_from_dir, path_name_from_plain.
Qed.

Lemma path_name_plain name : has_separator name = false → path_name name = name.
Proof. intros Hplain. unfold path_name. by rewrite path_name_from_plain. Qed.

Section PipelineLemmas.
Context `{W : World}.

(** What a returned document is made of. *)
Lemma tei2spacy_simple_inv tei_file_path doc :
  tei2spacy_simple tei_file_path = Some doc →
  ∃ soup metadata doc0 author title date,
    read_soup tei_file_path = Some soup ∧
    extract_metadata_from_tei tei_file_path = Some metadata ∧
    nlp_model_fr (flatten soup).1 = Some doc0 ∧
    metadata !! "author" = Some author ∧
    metadata !! "title" = Some title ∧
    metadata !! "date" = Some date ∧
    Doc.user_data doc =
      <["entity_linking" := None]>
        (<["filename" := Some (path_name tei_file_path)]>
           (<["path" := Some tei_file_path]>
              (<["publication_date" := date]>
                 (<["title" := title]>
                    (<["author" := author]> (Doc.user_data doc0)))))) ∧
    Doc.tokens doc = Doc.tokens doc0 ∧
    entities_to_add (flatten soup).2 (Doc.tokens doc) = Some (Doc.ents doc).
Proof.
  unfold tei2spacy_simple. intros Hdoc.
  destruct (read_soup tei_file_path) as [soup|]; [|done]. simpl in Hdoc.
  destruct (flatten soup) as [output_text chunks] eqn:Hflat.
  destruct (extract_metadata_from_tei tei_file_path) as [metadata|]; [|done].
  simpl in Hdoc.
  destruct (nlp_model_fr output_text) as [doc0|] eqn:Hnlp; [|done]. simpl in Hdoc.
  destruct (metadata !! "author") as [author|] eqn:Hauthor; [|done]. simpl in Hdoc.
  destruct (metadata !! "title") as [title|] eqn:Htitle; [|done]. simpl in Hdoc.
  destruct (metadata !! "date") as [date|] eqn:Hdate; [|done]. simpl in Hdoc.
  destruct (entities_to_add chunks (Doc.tokens doc0)) as [spans|] eqn:Hs; [|done].
  simpl in Hdoc. simplify_eq.
  exists soup, metadata, doc0, author, title, date. by rewrite Hflat.
Qed.

Lemma tei2spacy_simple_path tei_file_path doc :
  tei2spacy_simple tei_file_path = Some doc → doc_path doc = Some tei_file_path.
Proof.
  intros Hdoc.
  destruct (tei2spacy_simple_inv _ _ Hdoc)
    as (soup & metadata & doc0 & author & title & date & _ & _ & _ & _ & _ & _ & Hud & _).
  unfold doc_path. rewrite Hud. by simplify_map_eq.
Qed.
End PipelineLemmas.

(** C9: every document that [tei2spacy_simple] returns has in its
    [user_data] the author, the title and the date of the metadata of the
    file under [author], [title] and [publication_date], the path of the
    file under [path], its file name (what follows the last separator of
    the path) under [filename], and [None] under [entity_linking]. *)
Theorem C9_user_data_fields `{W : World} (tei_file_path : string) (doc : Doc.t) :
  tei2spacy_simple tei_file_path = Some doc →
  ∃ metadata author title date,
    extract_metadata_from_tei tei_file_path = Some metadata ∧
    metadata !! "author" = Some author ∧
    metadata !! "title" = Some title ∧
    metadata !! "date" = Some date ∧
    Doc.user_data doc !! "author" = Some author ∧
    Doc.user_data doc !! "title" = Some title ∧
    Doc.user_data doc !! "publication_date" = Some date ∧
    Doc.user_data doc !! "path" = Some (Some tei_file_path) ∧
    Doc.user_data doc !! "filename" = Some (Some (path_name tei_file_path)) ∧
    (∀ dir name,
       tei_file_path = dir +:+ "/" +:+ name → has_separator name = false →
       Doc.user_data doc !! "filename" = Some (Some name)) ∧
    (has_separator tei_file_path = false →
     Doc.user_data doc !! "filename" = Some (Some tei_file_path)) ∧
    Doc.user_data doc !! "entity_linking" = Some None.
Proof.
  intros Hdoc.
  destruct (tei2spacy_simple_inv _ _ Hdoc)
    as (soup & metadata & doc0 & author & title & date
        & _ & Hmeta & _ & Hauthor & Htitle & Hdate & Hud & _).
  exists metadata, author, title, date. rewrite Hud.
  do 4 (split; [done|]).
  do 5 (split; [by simplify_map_eq|]).
  split; [|split]; [| |by simplify_map_eq].
  - intros dir name -> Hplain. rewrite path_name_last by done. by simplify_map_eq.
  - intros Hplain. rewrite path_name_plain by done. by simplify_map_eq.
Qed.

(** C9 at the file [NER/jean.xml] of the small world. *)
Lemma C9_user_data_fields_witness :
  ∃ doc,
    tei2spacy_simple (W := Example.world []) "NER/jean.xml" = Some doc ∧
    Doc.user_data doc !! "author" = Some (Some "Corneille") ∧
    Doc.user_data doc !! "path" = Some (Some "NER/jean.xml") ∧
    Doc.user_data doc !! "filename" = Some (Some "jean.xml") ∧
    Doc.user_data doc !! "entity_linking" = Some None.
Proof.
  eexists. split; [vm_compute; reflexivity|].
  edestruct (C9_user_data_fields (W := Example.world []) "NER/jean.xml")
    as (metadata & author & title & date & Hmeta & Hauthor & _ & _
        & Hua & _ & _ & Hpath & _ & Hname & _ & Hlink);
    [vm_compute; reflexivity|].
  split; [|split; [done|split; [|done]]].
  - rewrite Hua. vm_compute in Hmeta. simplify_eq. vm_compute in Hauthor. by simplify_eq.
  - by apply (Hname "NER" "jean.xml").
Defined.

Example user_data_jean :
  (λ doc, (Doc.user_data doc !! "filename", Doc.user_data doc !! "entity_linking"))
    <$> tei2spacy_simple (W := Example.world []) "NER/jean.xml"
  = Some (Some (Some "jean.xml"), Some None).
Proof. reflexivity. Qed.

(** A file that cannot be read or parsed gives no document. *)
Example broken_file :
  tei2spacy_simple (W := Example.world []) "NER/broken.xml" = None.
Proof. reflexivity. Qed.

(** * Corpus Store and batch *)

Lemma foldl_add bin docs : foldl DocBin.add bin docs = bin ++ docs.
Proof.
  revert bin. induction docs as [|doc docs IH]; intros bin; simpl.
  - by rewrite app_nil_r.
  - rewrite IH. unfold DocBin.add. by rewrite <- app_assoc.
Qed.

Lemma mapM_app_Some {A B} (f : A → option B) l1 l2 k1 k2 :
  mapM f l1 = Some k1 → mapM f l2 = Some k2 → mapM f (l1 ++ l2) = Some (k1 ++ k2).
Proof. rewrite !mapM_Some. apply Forall2_app. Qed.

Lemma mapM_omap {A B} (f : A → option B) l k : mapM f l = Some k → omap f l = k.
Proof.
  rewrite mapM_Some. induction 1 as [|x y l k Hxy _ IH]; [done|].
  cbn. rewrite Hxy. cbn. by f_equal.
Qed.

Lemma corpus_paths_mapM bin paths :
  mapM doc_path bin = Some paths → corpus_paths bin = paths.
Proof. apply mapM_omap. Qed.

Section BatchLemmas.
Context `{W : World}.
Hypothesis set_iter_once : iterates_once W.

Lemma set_iter_empty : set_iter (∅ : gset string) = [].
Proof.
  apply Permutation_nil_r. rewrite (set_iter_once ∅). by rewrite elements_empty.
Qed.

Lemma set_iter_elem (X : gset string) x : x ∈ set_iter X ↔ x ∈ X.
Proof. rewrite (set_iter_once X). apply elem_of_elements. Qed.

Lemma set_iter_NoDup (X : gset string) : NoDup (set_iter X).
Proof. rewrite (set_iter_once X). apply NoDup_elements. Qed.

(** The documents made from a list of files carry the paths of the files,
    in the same order. *)
Lemma mapM_tei2spacy_simple files docs :
  mapM tei2spacy_simple files = Some docs → mapM doc_path docs = Some files.
Proof.
  rewrite !mapM_Some. intros Hall. apply Forall2_flip.
  eapply Forall2_impl; [exact Hall|]. simpl. intros file doc.
  apply tei2spacy_simple_path.
Qed.

(** The [assert] of the notebook never fails: a run that gets past
    [sample_files] processes the whole complement. *)
Lemma files_to_process_cases disk already :
  already_processed_files (load_corpus disk) = Some already →
  files_to_process disk = None ∨
  files_to_process disk
  = Some (set_iter (list_to_set (iterdir ner_dir) ∖ already)).
Proof.
  intros Hal. unfold files_to_process. rewrite Hal. simpl.
  destruct (sample_files ner_dir sample_size already); simpl; [right|by left].
  rewrite decide_True; [done|]. f_equal. set_solver.
Qed.

Lemma files_to_process_inv disk files :
  files_to_process disk = Some files →
  ∃ paths,
    mapM doc_path (load_corpus disk) = Some paths ∧
    files = set_iter (list_to_set (iterdir ner_dir) ∖ list_to_set paths).
Proof.
  intros Hf.
  destruct (already_processed_files (load_corpus disk)) as [already|] eqn:Hal.
  - destruct (files_to_process_cases disk already Hal) as [Hn|Hs];
      [by rewrite Hn in Hf|].
    rewrite Hs in Hf.
    unfold already_processed_files, DocBin.get_docs in Hal.
    destruct (mapM doc_path (load_corpus disk)) as [paths|]; [|done].
    simpl in *. exists paths. by simplify_eq.
  - unfold files_to_process in Hf. by rewrite Hal in Hf.
Qed.

Lemma run_batch_inv disk bin :
  run_batch disk = Some bin →
  ∃ paths files docs,
    mapM doc_path (load_corpus disk) = Some paths ∧
    files = set_iter (list_to_set (iterdir ner_dir) ∖ list_to_set paths) ∧
    mapM tei2spacy_simple files = Some docs ∧
    mapM doc_path docs = Some files ∧
    bin = load_corpus disk ++ docs.
Proof.
  intros Hrun. unfold run_batch in Hrun.
  destruct (files_to_process disk) as [files|] eqn:Hf; [|done].
  destruct (files_to_process_inv disk files Hf) as (paths & Hpaths & Hfiles).
  simpl in Hrun.
  destruct (mapM tei2spacy_simple files) as [docs|] eqn:Hdocs; [|done].
  pose proof (mapM_tei2spacy_simple _ _ Hdocs) as Hdp.
  simpl in Hrun. rewrite foldl_add in Hrun.
  exists paths, files, docs. by simplify_eq.
Qed.

(** A run that starts from the corpus written by a run finds nothing to
    process: it writes the same corpus, or raises and writes nothing. *)
Lemma run_batch_again disk bin :
  run_batch disk = Some bin →
  (∀ files, files_to_process (Some bin) = Some files → files = []) ∧
  (run_batch (Some bin) = Some bin ∨ run_batch (Some bin) = None).
Proof.
  intros Hrun.
  destruct (run_batch_inv disk bin Hrun)
    as (paths & files & docs & Hpaths & Hfiles & Hdocs & Hdp & Hbin).
  assert (already_processed_files (load_corpus (Some bin))
          = Some (list_to_set (paths ++ files))) as Hal.
  { unfold already_processed_files, DocBin.get_docs. simpl. rewrite Hbin.
    by rewrite (mapM_app_Some _ _ _ _ _ Hpaths Hdp). }
  assert (set_iter (list_to_set (iterdir ner_dir) ∖ list_to_set (paths ++ files))
          = []) as Hnone.
  { rewrite <- set_iter_empty. f_equal. apply set_eq. intros x.
    rewrite elem_of_difference, !elem_of_list_to_set, elem_of_app.
    split; [|set_solver]. intros [Hx Hnx]. exfalso. apply Hnx.
    destruct (decide (x ∈ paths)); [by left|right].
    rewrite Hfiles. apply set_iter_elem. set_solver. }
  destruct (files_to_process_cases (Some bin) _ Hal) as [Hn|Hs].
  - split; [intros files' Hf; by rewrite Hn in Hf|].
    right. unfold run_batch. by rewrite Hn.
  - rewrite Hnone in Hs. split; [intros files' Hf; by simplify_eq|].
    left. unfold run_batch. by rewrite Hs.
Qed.

Lemma run_batch_NoDup disk bin :
  NoDup (corpus_paths (load_corpus disk)) →
  run_batch disk = Some bin → NoDup (corpus_paths bin).
Proof.
  intros Hnd Hrun.
  destruct (run_batch_inv disk bin Hrun)
    as (paths & files & docs & Hpaths & Hfiles & Hdocs & Hdp & Hbin).
  rewrite (corpus_paths_mapM _ _ Hpaths) in Hnd.
  rewrite Hbin, (corpus_paths_mapM _ _ (mapM_app_Some _ _ _ _ _ Hpaths Hdp)).
  apply NoDup_app. split; [done|]. split; [|rewrite Hfiles; apply set_iter_NoDup].
  intros x Hx. rewrite Hfiles, set_iter_elem. set_solver.
Qed.
End BatchLemmas.

(** C2, as the code has it: nothing on the way to [add] or in it looks for
    the path of a document in the corpus: the loop over [docs] puts every
    document at the end of the corpus, whatever paths are there, and a run
    puts every document it made at the end of the loaded corpus, in order.
    What keeps the paths of the corpus pairwise distinct is the batch: the
    files it hands to [tei2spacy_simple] are the files of the directory whose
    paths are not in the loaded corpus, each of them once, and every document
    made carries the path of its file. So a corpus with pairwise distinct
    paths has pairwise distinct paths after the run. *)
Theorem C2_batch_keeps_paths_distinct `{W : World}
    (disk : option DocBin.t) (files : list string) :
  iterates_once W →
  files_to_process disk = Some files →
  (NoDup files ∧
   ∀ path, path ∈ files ↔
     path ∈ iterdir ner_dir ∧ path ∉ corpus_paths (load_corpus disk)) ∧
  (∀ bin, run_batch disk = Some bin →
    ∃ docs,
      mapM tei2spacy_simple files = Some docs ∧
      bin = foldl DocBin.add (load_corpus disk) docs ∧
      bin = load_corpus disk ++ docs ∧
      corpus_paths docs = files ∧
      corpus_paths bin = corpus_paths (load_corpus disk) ++ files ∧
      (NoDup (corpus_paths (load_corpus disk)) → NoDup (corpus_paths bin))) ∧
  (∀ (bin : DocBin.t) (docs : list Doc.t),
     length (foldl DocBin.add bin docs) = (length bin + length docs)%nat ∧
     corpus_paths (foldl DocBin.add bin docs)
     = corpus_paths bin ++ corpus_paths docs).
Proof.
  intros Hiter Hf.
  destruct (files_to_process_inv Hiter disk files Hf) as (paths & Hpaths & Hfiles).
  rewrite (corpus_paths_mapM _ _ Hpaths).
  split; [|split].
  3: { intros bin docs. rewrite foldl_add. split; [apply length_app|].
       unfold corpus_paths. apply omap_app. }
  - split; [rewrite Hfiles; apply (set_iter_NoDup Hiter)|].
    intros path. rewrite Hfiles, (set_iter_elem Hiter). set_solver.
  - intros bin Hrun. pose proof Hrun as Hrun'.
    unfold run_batch in Hrun'. rewrite Hf in Hrun'. simpl in Hrun'.
    destruct (mapM tei2spacy_simple files) as [docs|] eqn:Hdocs; [|done].
    simpl in Hrun'. simplify_eq. exists docs.
    pose proof (mapM_tei2spacy_simple _ _ Hdocs) as Hdp.
    split; [done|]. split; [done|]. split; [apply foldl_add|].
    split; [by apply corpus_paths_mapM|]. split.
    + rewrite foldl_add. apply corpus_paths_mapM. by apply mapM_app_Some.
    + intros Hnd. apply (run_batch_NoDup Hiter disk); [|done].
      by rewrite (corpus_paths_mapM _ _ Hpaths).
Qed.

(** C2 in the small world, from a store that holds a document for
    [NER/jean.xml] and a directory with that file and [NER/paris.xml]: only
    the second file is processed. *)
Lemma C2_batch_keeps_paths_distinct_witness :
  (∀ path, path ∈ ["NER/paris.xml"] ↔
     path ∈ iterdir (World := Example.world ["NER/jean.xml"; "NER/paris.xml"]) ner_dir
     ∧ path ∉ corpus_paths (load_corpus (Some [Example.doc_jean]))) ∧
  ∃ bin,
    run_batch (W := Example.world ["NER/jean.xml"; "NER/paris.xml"])
      (Some [Example.doc_jean]) = Some bin ∧
    corpus_paths bin = ["NER/jean.xml"; "NER/paris.xml"] ∧
    NoDup (corpus_paths bin).
Proof.
  destruct (C2_batch_keeps_paths_distinct
              (W := Example.world ["NER/jean.xml"; "NER/paris.xml"])
              (Some [Example.doc_jean]) ["NER/paris.xml"]
              (λ X, reflexivity (elements X)) ltac:(vm_compute; reflexivity))
    as ([_ Hmem] & Hrun & _).
  split; [exact Hmem|]. eexists. split; [vm_compute; reflexivity|].
  edestruct Hrun as (docs & _ & _ & _ & _ & Hpaths & Hnd); [vm_compute; reflexivity|].
  split; [exact Hpaths|]. apply Hnd. apply NoDup_singleton.
Defined.

(** C2 as stated fails: a document whose path is in the corpus is added
    without an error, and the corpus then holds the path twice. *)
Lemma C2_counterexample :
  "NER/jean.xml" ∈ corpus_paths [Example.doc_jean] ∧
  DocBin.add [Example.doc_jean] Example.doc_jean
    = [Example.doc_jean; Example.doc_jean] ∧
  corpus_paths (DocBin.add [Example.doc_jean] Example.doc_jean)
    = ["NER/jean.xml"; "NER/jean.xml"] ∧
  ¬ NoDup (corpus_paths (DocBin.add [Example.doc_jean] Example.doc_jean)).
Proof.
  split; [left|]. split; [reflexivity|]. split; [reflexivity|].
  intros Hnd. change (NoDup ["NER/jean.xml"; "NER/jean.xml"]) in Hnd.
  apply NoDup_cons in Hnd as [Hnin _]. apply Hnin. left.
Qed.

(** C4: a second run of the batch on the store left by a first run leaves the
    store as it is: the same documents, so the same membership set and the
    same summary counts; it hands no file to [tei2spacy_simple]; and a corpus
    with pairwise distinct paths still has pairwise distinct paths after the
    two runs. *)
Theorem C4_batch_idempotent `{W : World} (disk : option DocBin.t) :
  iterates_once W →
  let once := disk_after_run disk in
  let twice := disk_after_run once in
  twice = once ∧
  (∀ path, corpus_contains (load_corpus twice) path
           = corpus_contains (load_corpus once) path) ∧
  corpus_summary (load_corpus twice) = corpus_summary (load_corpus once) ∧
  (∀ files, files_to_process once = Some files →
            is_Some (run_batch disk) → files = []) ∧
  (NoDup (corpus_paths (load_corpus disk)) →
   NoDup (corpus_paths (load_corpus twice))).
Proof.
  intros Hiter once twice.
  assert (twice = once) as Heq.
  { subst twice once. unfold disk_after_run at 2 3.
    destruct (run_batch disk) as [bin|] eqn:Hrun.
    - unfold disk_after_run.
      by destruct (proj2 (run_batch_again Hiter disk bin Hrun)) as [-> | ->].
    - unfold disk_after_run. by rewrite Hrun. }
  split; [done|]. rewrite Heq. split; [done|]. split; [done|]. split.
  - intros files Hf [bin Hrun]. subst once. unfold disk_after_run in Hf.
    rewrite Hrun in Hf. by apply (run_batch_again Hiter disk bin Hrun).
  - intros Hnd. subst once. unfold disk_after_run.
    destruct (run_batch disk) as [bin|] eqn:Hrun; [|done].
    simpl. by apply (run_batch_NoDup Hiter disk bin).
Qed.

(** C4 in the small world, from an empty store and two files. *)
Lemma C4_batch_idempotent_witness :
  disk_after_run (W := Example.world ["NER/jean.xml"; "NER/paris.xml"])
    (disk_after_run (W := Example.world ["NER/jean.xml"; "NER/paris.xml"]) None)
  = disk_after_run (W := Example.world ["NER/jean.xml"; "NER/paris.xml"]) None.
Proof.
  exact (proj1 (C4_batch_idempotent
                  (W := Example.world ["NER/jean.xml"; "NER/paris.xml"]) None
                  (λ X, reflexivity (elements X)))).
Defined.

Example batch_two_files :
  (corpus_paths <$> run_batch (W := Example.world ["NER/jean.xml"; "NER/paris.xml"]) None,
   corpus_summary <$> run_batch (W := Example.world ["NER/jean.xml"; "NER/paris.xml"]) None)
  = (Some ["NER/jean.xml"; "NER/paris.xml"], Some (2, 1, 5)).
Proof. vm_compute. reflexivity. Qed.

(** C5, as the code has it: the files handed to [tei2spacy_simple] are the
    files of the directory that are not in the corpus, each of them once;
    their number is the size of that set, whatever [sample_size] is and
    whatever [sample_files] returns. *)
Theorem C5_processed_files_are_complement `{W : World}
    (disk : option DocBin.t) (files : list string) :
  iterates_once W →
  files_to_process disk = Some files →
  ∃ already : gset string,
    already_processed_files (load_corpus disk) = Some already ∧
    NoDup files ∧
    (∀ path, path ∈ files ↔ path ∈ iterdir ner_dir ∧ path ∉ already) ∧
    length files = size (list_to_set (iterdir ner_dir) ∖ already : gset string).
Proof.
  intros Hiter Hf.
  destruct (files_to_process_inv Hiter disk files Hf) as (paths & Hpaths & ->).
  exists (list_to_set paths). split.
  { unfold already_processed_files, DocBin.get_docs. by rewrite Hpaths. }
  split; [apply (set_iter_NoDup Hiter)|]. split.
  - intros path. rewrite (set_iter_elem Hiter). set_solver.
  - unfold size, set_size. simpl. by rewrite (Hiter _).
Qed.

(** C5 in the small world: both files of the directory are processed. *)
Lemma C5_processed_files_are_complement_witness :
  ∃ already : gset string,
    already_processed_files (load_corpus None) = Some already ∧
    NoDup ["NER/jean.xml"; "NER/paris.xml"] ∧
    (∀ path, path ∈ ["NER/jean.xml"; "NER/paris.xml"] ↔
       path ∈ iterdir (World := Example.world ["NER/jean.xml"; "NER/paris.xml"]) ner_dir
       ∧ path ∉ already) ∧
    length ["NER/jean.xml"; "NER/paris.xml"]
    = size (list_to_set
              (iterdir (World := Example.world ["NER/jean.xml"; "NER/paris.xml"]) ner_dir)
            ∖ already : gset string).
Proof.
  apply (C5_processed_files_are_complement
           (W := Example.world ["NER/jean.xml"; "NER/paris.xml"]) None
           ["NER/jean.xml"; "NER/paris.xml"] (λ X, reflexivity (elements X))).
  vm_compute. reflexivity.
Defined.

(** C5 as stated fails: with 101 files in the directory and an empty store,
    101 files are processed, and [sample_size] is 100. *)
Lemma C5_counterexample :
  ∃ files,
    files_to_process (W := Example.world (Example.numbered_files 101)) None
    = Some files ∧
    sample_size < Z.of_nat (length files).
Proof. eexists. split; [vm_compute; reflexivity|]. vm_compute. reflexivity. Qed.

(** * More on the flattener *)

Lemma substring_app_here t r :
  substring 0 (String.length t) (t +:+ r) = t.
Proof.
  induction t as [|c t IH]; [by destruct r|].
  rewrite string_app_cons. simpl. by rewrite IH.
Qed.

Lemma substring_app_skip s n m r :
  substring (String.length s + n) m (s +:+ r) = substring n m r.
Proof.
  induction s as [|c s IH]; [reflexivity|]. rewrite string_app_cons. simpl. apply IH.
Qed.

Lemma slice_app_middle s t r :
  slice (s +:+ t +:+ r) (len s) (len s + len t) = t.
Proof.
  unfold slice, len.
  replace (Z.to_nat (Z.of_nat (String.length s)))
    with (String.length s + 0)%nat by lia.
  replace (Z.to_nat (Z.of_nat (String.length s) + Z.of_nat (String.length t)
                     - Z.of_nat (String.length s)))
    with (String.length t) by lia.
  rewrite substring_app_skip. apply substring_app_here.
Qed.

Lemma node_text_tag name cs :
  Node.text (Tag name cs) = foldr (λ c acc, Node.text c +:+ acc) "" cs.
Proof.
  induction cs as [|c cs IH]; [reflexivity|].
  change (Node.text (Tag name (c :: cs)))
    with (Node.text c +:+ Node.text (Tag name cs)).
  by rewrite IH.
Qed.

Lemma find_all_tags name soup node :
  node ∈ Node.findAll name soup → ∃ cs, node = Tag name cs.
Proof.
  unfold Node.findAll. intros Hin. apply list_elem_of_In in Hin.
  apply filter_In in Hin as [_ Hnamed].
  destruct node as [s|nm cs]; [done|]. simpl in Hnamed.
  apply bool_decide_eq_true in Hnamed as ->. by exists cs.
Qed.

Section FlattenText.
Context `{W : World}.
Implicit Types (st : string * list ((Z * Z) * string)).

Lemma flatten_node_text st node :
  (flatten_node st node).1 = st.1 +:+ Node.text node.
Proof.
  destruct st as [output_text chunks]. unfold flatten_node.
  destruct node as [s|name cs]; [done|].
  generalize (Node.text (Tag name cs)). intros t.
  by destruct (is_annotation name).
Qed.

Lemma flatten_nodes_text nodes st :
  (foldl flatten_node st nodes).1
  = st.1 +:+ foldr (λ c acc, Node.text c +:+ acc) "" nodes.
Proof.
  revert st. induction nodes as [|node nodes IH]; intros st; simpl.
  - by rewrite string_app_nil_r.
  - by rewrite IH, flatten_node_text, string_app_assoc.
Qed.

Lemma flatten_elem_text st name cs :
  (flatten_elem st (Tag name cs)).1 = st.1 +:+ Node.text (Tag name cs) +:+ " ".
Proof.
  unfold flatten_elem. rewrite node_text_tag.
  pose proof (flatten_nodes_text cs st) as Ht.
  change (Node.contents (Tag name cs)) with cs.
  destruct (foldl flatten_node st cs) as [output_text chunks].
  cbn [fst] in *. by rewrite Ht, string_app_assoc.
Qed.

Lemma flatten_elems_text regs st :
  (∀ elem, elem ∈ regs → ∃ name cs, elem = Tag name cs) →
  (foldl flatten_elem st regs).1 = st.1 +:+ reg_texts regs.
Proof.
  revert st. induction regs as [|elem regs IH]; intros st Htags; simpl.
  - by rewrite string_app_nil_r.
  - destruct (Htags elem) as (name & cs & ->); [left|].
    rewrite IH by (intros e He; apply Htags; by right).
    by rewrite flatten_elem_text, !string_app_assoc.
Qed.

(** The steps of the first loop write after the text that is there. *)
Lemma flat_steps_text st st' :
  rtc flat_step st st' → ∃ more, st'.1 = st.1 +:+ more.
Proof.
  induction 1 as [st|st st1 st' Hstep _ [more IH]].
  - exists "". by rewrite string_app_nil_r.
  - destruct Hstep as [st node|output_text chunks].
    + rewrite flatten_node_text in IH. eexists. by rewrite IH, string_app_assoc.
    + simpl in *. eexists. by rewrite IH, string_app_assoc.
Qed.

(** From an annotation element to the end of the first loop. *)
Lemma flat_steps_to_end regs_before elem regs_after nodes_before node nodes_after :
  Node.contents elem = nodes_before ++ node :: nodes_after →
  rtc flat_step
    (flatten_node (foldl flatten_node (flatten_regs regs_before) nodes_before) node)
    (flatten_regs (regs_before ++ elem :: regs_after)).
Proof.
  intros Hcontents. unfold flatten_regs. rewrite foldl_app. simpl.
  etrans; [|apply flat_steps_elems].
  unfold flatten_elem at 2. rewrite Hcontents, foldl_app. simpl.
  pose proof (flat_steps_nodes nodes_after
    (flatten_node (foldl flatten_node (foldl flatten_elem ("", []) regs_before)
                     nodes_before) node)) as Hn.
  destruct (foldl flatten_node _ nodes_after) as [output_text chunks].
  eapply rtc_r; [exact Hn|apply flat_step_blank].
Qed.
End FlattenText.

(** X1: the flattened text is the texts of the [reg] elements of the file, in
    document order, each followed by one blank; it does not depend on which
    children are annotation elements. A file without [reg] elements gives
    the empty text and no interval. *)
Theorem X1_flattened_text `{W : World} (soup : PageElement) :
  (flatten soup).1 = reg_texts (Node.findAll "reg" soup) ∧
  (Node.findAll "reg" soup = [] → flatten soup = ("", [])) ∧
  (Node.findAll "reg" soup ≠ [] → (flatten soup).1 ≠ "").
Proof.
  assert ((flatten soup).1 = reg_texts (Node.findAll "reg" soup)) as Htext.
  { unfold flatten, flatten_regs. rewrite flatten_elems_text; [done|].
    intros elem Hin. apply find_all_tags in Hin as [cs ->]. by eexists _, _. }
  split; [done|]. split.
  - intros Hnone. unfold flatten. by rewrite Hnone.
  - intros Hsome Hempty. rewrite Htext in Hempty.
    destruct (Node.findAll "reg" soup) as [|elem regs]; [done|].
    simpl in Hempty. apply (f_equal len) in Hempty.
    rewrite !len_app in Hempty.
    pose proof (len_nonneg (Node.text elem)). pose proof (len_nonneg (reg_texts regs)).
    change (len " ") with 1 in Hempty. change (len "") with 0 in Hempty. lia.
Qed.

(** X1 on a file without [reg] elements. *)
Lemma X1_flattened_text_witness :
  flatten (W := Example.world []) (Tag "[document]" [Tag "TEI" []]) = ("", []).
Proof.
  apply (proj1 (proj2 (X1_flattened_text (W := Example.world [])
                         (Tag "[document]" [Tag "TEI" []]))) eq_refl).
Defined.

(** X2: the interval recorded for an annotation element stays a key of
    [chunks] until the end of the loop, and the flattened text between its
    two offsets is the text of the element. *)
Theorem X2_interval_slices_element_text `{W : World} (soup : PageElement)
    regs_before elem regs_after nodes_before name cs nodes_after :
  Node.findAll "reg" soup = regs_before ++ elem :: regs_after →
  Node.contents elem = nodes_before ++ Tag name cs :: nodes_after →
  is_annotation name = true →
  let st := foldl flatten_node (flatten_regs regs_before) nodes_before in
  let iv := interval_of st (Tag name cs) in
  iv ∈ dict_keys (flatten soup).2 ∧
  slice (flatten soup).1 iv.1 iv.2 = Node.text (Tag name cs).
Proof.
  intros Hregs Hcontents Hann st iv.
  pose proof (flat_steps_to_end regs_before elem regs_after nodes_before
                (Tag name cs) nodes_after Hcontents) as Hsteps.
  fold st in Hsteps. unfold flatten. rewrite Hregs.
  destruct (flat_steps_grow _ _ Hsteps) as [_ Hkeys].
  destruct (flat_steps_text _ _ Hsteps) as [more Hmore].
  split.
  - apply Hkeys. by apply flatten_node_annotation_key.
  - rewrite Hmore, flatten_node_text, string_app_assoc.
    subst iv. unfold interval_of. simpl. apply slice_app_middle.
Qed.

(** X2 at [<reg>Bonjour <persName>Jean</persName></reg>]: the text from 8
    to 12 is ["Jean"]. *)
Lemma X2_interval_slices_element_text_witness :
  slice (flatten (W := Example.world []) Example.soup_jean).1 8 12 = "Jean".
Proof.
  exact (proj2 (X2_interval_slices_element_text (W := Example.world [])
    Example.soup_jean []
    (Tag "reg" [NavigableString "Bonjour "; Tag "persName" [NavigableString "Jean"]])
    [] [NavigableString "Bonjour "] "persName" [NavigableString "Jean"] []
    eq_refl eq_refl eq_refl)).
Defined.

Lemma dict_set_Forall_key {K V} `{EqDecision K} (Q : K → Prop) (k : K) (v : V) d :
  Forall (λ b, Q b.1) d → Q k → Forall (λ b, Q b.1) (dict_set k v d).
Proof.
  intros Hall Hk. induction Hall as [|[k' v'] d Hk' Hall IH]; simpl.
  - by repeat constructor.
  - destruct (decide (k = k')); by constructor.
Qed.

Lemma dict_set_chained (k : Z * Z) (v : string) d :
  intervals_chained d → k.1 ≤ k.2 → Forall (λ a, a.1.2 ≤ k.1) d →
  intervals_chained (dict_set k v d).
Proof.
  intros [Hsorted Hpos] Hk Hbefore. split.
  - induction Hsorted as [|[k' v'] d Hd IH Hhead]; simpl.
    + repeat constructor.
    + apply Forall_cons in Hbefore as [Hk' Hbefore].
      apply Forall_cons in Hpos as [_ Hpos].
      destruct (decide (k = k')) as [->|Hne]; [by constructor|].
      constructor; [by apply IH|].
      by apply (dict_set_Forall_key (λ b, k'.2 ≤ b.1)).
  - by apply (dict_set_Forall_key (λ b, b.1 ≤ b.2)).
Qed.

Lemma StronglySorted_lookup {A} (R : relation A) l (m n : nat) a b :
  StronglySorted R l → (m < n)%nat → l !! m = Some a → l !! n = Some b → R a b.
Proof.
  intros Hsorted. revert m n.
  induction Hsorted as [|x l Hl IH Hx]; intros m n Hmn Ha Hb; [done|].
  destruct n as [|n]; [lia|]. destruct m as [|m]; simplify_eq/=.
  - rewrite Forall_forall in Hx. apply Hx. by eapply list_elem_of_lookup_2.
  - apply (IH m n); [lia|done..].
Qed.

Lemma chained_sorted_by_start chunks :
  intervals_chained chunks → sorted_by_start chunks.
Proof.
  intros [Hsorted Hpos]. unfold sorted_by_start.
  induction Hsorted as [|a d Hd IH Ha]; [constructor|].
  apply Forall_cons in Hpos as [Hapos Hpos].
  constructor; [by apply IH|]. eapply Forall_impl; [exact Ha|]. simpl. intros; lia.
Qed.

Lemma chained_non_overlapping chunks :
  intervals_chained chunks → non_overlapping chunks.
Proof.
  intros [Hsorted _] m n a b Hmn Ha Hb.
  destruct (decide (m < n)%nat) as [Hlt|Hge].
  - left. exact (StronglySorted_lookup _ chunks m n a b Hsorted Hlt Ha Hb).
  - right. assert (n < m)%nat as Hlt by lia.
    exact (StronglySorted_lookup _ chunks n m b a Hsorted Hlt Hb Ha).
Qed.

Section FlattenChain.
Context `{W : World}.
Implicit Types (st : string * list ((Z * Z) * string)).

Lemma flat_chain_grow output_text more chunks :
  flat_chain (output_text, chunks) → flat_chain (output_text +:+ more, chunks).
Proof.
  intros [Hch Hb]. split; [done|]. simpl in *.
  eapply Forall_impl; [exact Hb|]. simpl. intros a Ha.
  rewrite len_app. pose proof (len_nonneg more). lia.
Qed.

Lemma flat_chain_node st node : flat_chain st → flat_chain (flatten_node st node).
Proof.
  destruct st as [output_text chunks]. intros Hinv.
  destruct node as [s|name cs]; [by apply flat_chain_grow|].
  unfold flatten_node. generalize (Node.text (Tag name cs)). intros t.
  destruct (is_annotation name); [|by apply flat_chain_grow].
  destruct Hinv as [Hch Hb]. pose proof (len_nonneg t). simpl in *. split; simpl.
  - apply dict_set_chained; simpl; [done|rewrite len_app; lia|done].
  - apply (dict_set_Forall_key (λ k, k.2 ≤ len (output_text +:+ t))); simpl; [|lia].
    eapply Forall_impl; [exact Hb|]. simpl. intros a Ha. rewrite len_app. lia.
Qed.

Lemma flat_chain_steps st st' : rtc flat_step st st' → flat_chain st → flat_chain st'.
Proof.
  induction 1 as [st|st st1 st' Hstep _ IH]; [done|]. intros Hinv. apply IH.
  destruct Hstep as [st node|output_text chunks];
    [by apply flat_chain_node|by apply flat_chain_grow].
Qed.

Lemma flat_chain_flatten soup : flat_chain (flatten soup).
Proof.
  eapply flat_chain_steps; [apply flat_steps_elems|].
  split; [split|]; constructor.
Qed.
End FlattenChain.

(** X3: the intervals that the flattener hands to the projector are in text
    order and pairwise non-overlapping: each interval ends no later than the
    next one begins. So on these intervals the lookup of every token gives
    what the scan over sorted intervals gives, which stops at the first
    interval that begins after the token. *)
Theorem X3_flattened_intervals_sorted `{W : World} (soup : PageElement) :
  sorted_by_start (flatten soup).2 ∧
  non_overlapping (flatten soup).2 ∧
  (∀ (m n : nat) a b, (m < n)%nat →
     (flatten soup).2 !! m = Some a → (flatten soup).2 !! n = Some b →
     a.1.1 ≤ a.1.2 ∧ a.1.2 ≤ b.1.1) ∧
  ∀ token,
    token_label (flatten soup).2 token
    = sorted_scan (Token.idx token) (Token.idx token + len (Token.text token))
        (flatten soup).2.
Proof.
  destruct (flat_chain_flatten soup) as [Hch _].
  pose proof (chained_sorted_by_start _ Hch) as Hsorted.
  split; [done|]. split; [by apply chained_non_overlapping|]. split.
  - intros m n a b Hmn Ha Hb. destruct Hch as [Hss Hpos]. split.
    + rewrite Forall_forall in Hpos. apply Hpos. by eapply list_elem_of_lookup_2.
    + exact (StronglySorted_lookup _ _ m n a b Hss Hmn Ha Hb).
  - intros token. apply get_tag_sorted_scan; [|done].
    pose proof (len_nonneg (Token.text token)). lia.
Qed.

(** X4: only the children of a [reg] element are looked at. A [reg] element
    none of whose children is a [persName] or [placeName] element adds its
    text and no interval, also when such elements lie deeper inside its
    children. *)
Theorem X4_nested_annotation_ignored `{W : World}
    (st : string * list ((Z * Z) * string)) (name : string)
    (cs : list PageElement) :
  (∀ nm below, Tag nm below ∈ cs → is_annotation nm = false) →
  flatten_elem st (Tag name cs)
  = (st.1 +:+ Node.text (Tag name cs) +:+ " ", st.2).
Proof.
  intros Hplain.
  assert ((flatten_elem st (Tag name cs)).2 = st.2) as Hchunks.
  { unfold flatten_elem. change (Node.contents (Tag name cs)) with cs.
    assert ((foldl flatten_node st cs).2 = st.2) as Hfold.
    { revert st. induction cs as [|c cs IH]; intros st; [done|]. simpl.
      rewrite IH by (intros nm below Hin; apply (Hplain nm below); by right).
      destruct st as [output_text chunks]. destruct c as [s|nm below]; [done|].
      unfold flatten_node. generalize (Node.text (Tag nm below)). intros t.
      by rewrite (Hplain nm below) by left. }
    by destruct (foldl flatten_node st cs). }
  pose proof (flatten_elem_text st name cs) as Htext.
  destruct (flatten_elem st (Tag name cs)). simpl in *. by subst.
Qed.

(** X4 at [<reg><hi><persName>Jean</persName></hi></reg>]: the name is in
    the text and has no interval. *)
Lemma X4_nested_annotation_ignored_witness :
  flatten_elem (W := Example.world []) ("", [])
    (Tag "reg" [Tag "hi" [Tag "persName" [NavigableString "Jean"]]])
  = ("Jean ", []).
Proof.
  apply (X4_nested_annotation_ignored (W := Example.world []) ("", []) "reg"
           [Tag "hi" [Tag "persName" [NavigableString "Jean"]]]).
  intros nm below Hin. apply list_elem_of_singleton in Hin. by simplify_eq.
Defined.

(** X5: the lookup returns the tag of the first interval, in the order of
    the dict, that contains the range: the tag is returned exactly when the
    intervals split into a part without a containing interval, an interval
    with that tag that contains the range, and the rest. *)
Theorem X5_lookup_first_match (char_start char_end : Z)
    (entities : list ((Z * Z) * string)) (tag : string) :
  get_tag_from_char_index char_start char_end entities = Some tag ↔
  ∃ before iv after,
    entities = before ++ (iv, tag) :: after ∧
    contains iv char_start char_end ∧
    ∀ iv' tag', (iv', tag') ∈ before → ¬ contains iv' char_start char_end.
Proof.
  induction entities as [|[[s e] t] rest IH]; simpl.
  - split; [done|]. intros (before & iv & after & Heq & _). by destruct before.
  - destruct ((s <=? char_start) && (e >=? char_end)) eqn:Hc.
    + assert (contains (s, e) char_start char_end) as Hct.
      { apply andb_true_iff in Hc as [H1 H2]. unfold contains; simpl. lia. }
      split.
      * intros [= ->]. exists [], (s, e), rest. split; [done|]. split; [done|].
        intros iv' tag' Hin. by apply not_elem_of_nil in Hin.
      * intros (before & iv & after & Heq & _ & Hfirst).
        destruct before as [|b before]; simplify_eq/=; [done|].
        exfalso. apply (Hfirst (s, e) t); [left|done].
    + assert (¬ contains (s, e) char_start char_end) as Hnct.
      { unfold contains; simpl. apply andb_false_iff in Hc. lia. }
      rewrite IH. split.
      * intros (before & iv & after & -> & Hct & Hfirst).
        exists (((s, e), t) :: before), iv, after. split; [done|]. split; [done|].
        intros iv' tag' [[= -> ->]|Hin]%elem_of_cons; [done|by eapply Hfirst].
      * intros (before & iv & after & Heq & Hct & Hfirst).
        destruct before as [|b before]; simplify_eq/=; [done|].
        exists before, iv, after. split; [done|]. split; [done|].
        intros iv' tag' Hin. apply (Hfirst iv' tag'). by right.
Qed.

(** * More on the merger *)

Lemma label_at_snoc_l chunks pre token (k : nat) :
  (k < length pre)%nat →
  label_at chunks (pre ++ [token]) k = label_at chunks pre k.
Proof. intros Hk. unfold label_at. by rewrite lookup_app_l. Qed.

Lemma label_at_snoc_here chunks pre token :
  label_at chunks (pre ++ [token]) (length pre) = token_label chunks token.
Proof. unfold label_at. by rewrite list_lookup_middle. Qed.

Lemma label_at_Some_lt chunks pre (k : nat) l :
  label_at chunks pre k = Some l → (k < length pre)%nat.
Proof.
  unfold label_at. destruct (pre !! k) eqn:Hk; [|done].
  intros _. by eapply lookup_lt_Some.
Qed.

Lemma closed_ok_snoc chunks pre token bound spans :
  closed_ok chunks pre bound spans → bound ≤ Z.of_nat (length pre) →
  closed_ok chunks (pre ++ [token]) bound spans.
Proof.
  intros (HA & HB & HC & HE & HF) Hbound.
  split; [|split; [|split; [|split]]].
  - intros sp Hsp. destruct (HA sp Hsp) as (? & ? & ? & ?).
    rewrite length_app. simpl. lia.
  - intros sp k Hsp Hk. destruct (HA sp Hsp) as (? & ? & ? & ?).
    rewrite label_at_snoc_l by lia. by apply HB.
  - intros k l Hl Hk. rewrite label_at_snoc_l in Hl by lia. by apply HC.
  - intros sp k Hsp Hk. destruct (HA sp Hsp) as (? & ? & ? & ?).
    rewrite label_at_snoc_l by lia. by apply HE.
  - intros sp k Hsp Hk. destruct (HA sp Hsp) as (? & ? & ? & ?).
    rewrite label_at_snoc_l by lia. by apply HF.
Qed.

Lemma closed_ok_skip chunks pre token spans :
  closed_ok chunks (pre ++ [token]) (Z.of_nat (length pre)) spans →
  token_label chunks token = None →
  closed_ok chunks (pre ++ [token]) (Z.of_nat (length pre) + 1) spans.
Proof.
  intros (HA & HB & HC & HE & HF) Hnone.
  split; [|split; [|split; [|split]]]; [|done| |done|done].
  - intros sp Hsp. destruct (HA sp Hsp) as (? & ? & ? & ?). lia.
  - intros k l Hl Hk. destruct (decide (k = length pre)) as [->|Hne].
    + rewrite label_at_snoc_here, Hnone in Hl. done.
    + apply HC; [done|lia].
Qed.

Lemma open_ok_to_spacy_ent chunks pre st s l :
  open_ok chunks pre st s l →
  to_spacy_ent (entity st) = Some (Span.mk s (Z.of_nat (length pre)) l).
Proof.
  intros (toks & first & final & He & Hhd & Hlst & Hs & Hfin & _).
  rewrite He. unfold to_spacy_ent. simpl. rewrite Hhd. simpl. rewrite Hlst. simpl.
  do 2 f_equal; lia.
Qed.

(** Closing the open entity when the next token does not carry its label. *)
Lemma closed_ok_close chunks pre token st s l spans :
  closed_ok chunks pre s spans → open_ok chunks pre st s l →
  token_label chunks token ≠ Some l →
  closed_ok chunks (pre ++ [token]) (Z.of_nat (length pre))
    (spans ++ [Span.mk s (Z.of_nat (length pre)) l]).
Proof.
  intros Hclosed Hopen Hnext.
  destruct Hopen as (toks & first & final & He & Hhd & Hlst & Hs & Hfin & Hsn & Hrun & Hprev).
  apply (closed_ok_snoc _ _ token) in Hclosed as (HA & HB & HC & HE & HF); [|lia].
  split; [|split; [|split; [|split]]].
  - intros sp [Hsp| ->%list_elem_of_singleton]%elem_of_app.
    + destruct (HA sp Hsp) as (? & ? & ? & ?). lia.
    + simpl. rewrite length_app. simpl. lia.
  - intros sp k [Hsp| ->%list_elem_of_singleton]%elem_of_app Hk; [by apply HB|].
    simpl in *. rewrite label_at_snoc_l by lia. apply Hrun. lia.
  - intros k l' Hl Hk. destruct (decide (Z.of_nat k < s)) as [Hlt|Hge].
    + destruct (HC k l' Hl Hlt) as (sp & Hsp & Hcov & Hlab).
      exists sp. split; [apply elem_of_app; by left|done].
    + eexists. split; [apply elem_of_app; right; by apply list_elem_of_singleton|].
      simpl. split; [lia|]. rewrite label_at_snoc_l in Hl by lia.
      rewrite Hrun in Hl by lia. by simplify_eq.
  - intros sp k [Hsp| ->%list_elem_of_singleton]%elem_of_app Hk; [by apply HE|].
    simpl in *. replace k with (length pre) by lia.
    by rewrite label_at_snoc_here.
  - intros sp k [Hsp| ->%list_elem_of_singleton]%elem_of_app Hk; [by apply HF|].
    simpl in *. rewrite label_at_snoc_l by lia. by apply Hprev.
Qed.

Lemma open_ok_start chunks pre token st l :
  token_label chunks token = Some l →
  Token.i token = Z.of_nat (length pre) →
  entity st = Entity.mk (Some l) (Some [token]) →
  (∀ k : nat, Z.of_nat k + 1 = Z.of_nat (length pre) →
     label_at chunks pre k ≠ Some l) →
  open_ok chunks (pre ++ [token]) st (Z.of_nat (length pre)) l.
Proof.
  intros Hl Hi He Hprev. exists [token], token, token.
  rewrite length_app. simpl.
  split; [done|]. split; [done|]. split; [done|]. split; [done|].
  split; [lia|]. split; [lia|]. split.
  - intros k Hk. replace k with (length pre) by lia. by rewrite label_at_snoc_here.
  - intros k Hk. rewrite label_at_snoc_l by lia. by apply Hprev.
Qed.

Lemma merge_runs_init chunks : merge_runs chunks [] merge_init.
Proof.
  exists []. split; [done|]. simpl. split; [|intros k; lia].
  split; [|split; [|split; [|split]]]; try (by intros sp ? ?%not_elem_of_nil).
  - by intros sp ?%not_elem_of_nil.
  - by intros k l Hl.
Qed.

Lemma merge_step_runs chunks pre st token :
  merge_runs chunks pre st → Token.i token = Z.of_nat (length pre) →
  ∃ st', merge_step chunks st token = Some st' ∧
         merge_runs chunks (pre ++ [token]) st'.
Proof.
  intros (spans & Hm & Hst) Hi. unfold merge_step.
  destruct (inside_entity st) eqn:Hinside.
  - destruct Hst as (s & l & Hopen & Hclosed).
    pose proof (open_ok_to_spacy_ent _ _ _ _ _ Hopen) as Hconv.
    pose proof (mapM_snoc _ _ _ _ _ Hm Hconv) as Hm'.
    pose proof Hopen as (toks & first & final & He & Hhd & Hlst & Hs & Hfin & Hsn & Hrun & Hprev).
    destruct (token_label chunks token) as [l'|] eqn:Hlabel.
    + rewrite He. simpl. destruct (decide (l = l')) as [<-|Hne].
      * eexists. split; [done|]. exists spans. split; [done|]. simpl.
        exists s, l. split; [|apply closed_ok_snoc; [done|lia]].
        exists (toks ++ [token]), first, token. rewrite length_app. simpl.
        split; [done|]. split; [by destruct toks|]. split; [apply last_snoc|].
        split; [done|]. split; [lia|]. split; [lia|]. split.
        -- intros k Hk. destruct (decide (k = length pre)) as [->|Hk'].
           ++ by rewrite label_at_snoc_here.
           ++ rewrite label_at_snoc_l by lia. apply Hrun. lia.
        -- intros k Hk. rewrite label_at_snoc_l by lia. by apply Hprev.
      * eexists. split; [done|]. eexists. rewrite <- He. split; [exact Hm'|]. simpl.
        exists (Z.of_nat (length pre)), l'. split.
        -- apply open_ok_start; [done..|].
           intros k Hk. rewrite Hrun by lia. congruence.
        -- apply (closed_ok_close _ _ _ st); [done..|]. rewrite Hlabel. congruence.
    + eexists. split; [done|]. eexists. split; [exact Hm'|]. simpl.
      rewrite length_app. simpl. split.
      * replace (Z.of_nat (length pre + 1)) with (Z.of_nat (length pre) + 1) by lia.
        apply closed_ok_skip; [|done].
        apply (closed_ok_close _ _ _ st); [done..|]. by rewrite Hlabel.
      * intros k Hk. replace k with (length pre) by lia.
        by rewrite label_at_snoc_here.
  - destruct Hst as [Hclosed Hprev].
    destruct (token_label chunks token) as [l'|] eqn:Hlabel.
    + eexists. split; [done|]. exists spans. split; [done|]. simpl.
      exists (Z.of_nat (length pre)), l'. split.
      * apply open_ok_start; [done..|]. intros k Hk. by rewrite Hprev.
      * apply closed_ok_snoc; [done|lia].
    + exists st. split; [done|]. exists spans. split; [done|]. rewrite Hinside.
      rewrite length_app. simpl. split.
      * replace (Z.of_nat (length pre + 1)) with (Z.of_nat (length pre) + 1) by lia.
        apply closed_ok_skip; [|done]. apply closed_ok_snoc; [done|lia].
      * intros k Hk. replace k with (length pre) by lia.
        by rewrite label_at_snoc_here.
Qed.

Lemma merge_loop_runs chunks rest pre st :
  merge_runs chunks pre st →
  (∀ (k : nat) token, rest !! k = Some token →
     Token.i token = Z.of_nat (length pre + k)) →
  ∃ st', merge_loop chunks st rest = Some st' ∧
         merge_runs chunks (pre ++ rest) st'.
Proof.
  revert pre st. induction rest as [|token rest IH]; intros pre st Hinv Hidx.
  - exists st. split; [done|]. by rewrite app_nil_r.
  - destruct (merge_step_runs chunks pre st token Hinv) as (st1 & Hstep & Hinv1).
    { rewrite (Hidx 0%nat token eq_refl). f_equal. lia. }
    destruct (IH (pre ++ [token]) st1 Hinv1) as (st' & Hloop & Hinv').
    { intros k t Hk. rewrite (Hidx (S k) t Hk), length_app. simpl. f_equal. lia. }
    exists st'. simpl. rewrite Hstep. simpl. split; [done|].
    by rewrite <- app_assoc in Hinv'.
Qed.

Lemma merge_loop_runs_indexed chunks doc :
  doc_indexed doc →
  ∃ st, merge_loop chunks merge_init doc = Some st ∧ merge_runs chunks doc st.
Proof.
  intros Hdoc.
  destruct (merge_loop_runs chunks doc [] merge_init (merge_runs_init chunks))
    as (st & Hloop & Hinv); [|by exists st].
  intros k token Hk. by apply (doc_indexed_lookup doc).
Qed.

Lemma merge_runs_closed chunks doc st :
  merge_runs chunks doc st →
  ∃ spans bound,
    mapM to_spacy_ent (entities st) = Some spans ∧
    closed_ok chunks doc bound spans ∧ bound ≤ Z.of_nat (length doc) ∧
    ∀ (k : nat) l, label_at chunks doc k = Some l → bound ≤ Z.of_nat k →
      ∀ k' : nat, (k ≤ k' < length doc)%nat → label_at chunks doc k' = Some l.
Proof.
  intros (spans & Hm & Hst). destruct (inside_entity st).
  - destruct Hst as (s & l & Hopen & Hclosed). exists spans, s.
    destruct Hopen as (toks & first & final & _ & _ & _ & _ & _ & Hsn & Hrun & _).
    split; [done|]. split; [done|]. split; [lia|].
    intros k l' Hl Hk k' Hk'. apply label_at_Some_lt in Hl as Hlt.
    rewrite Hrun in Hl by lia. simplify_eq. apply Hrun. lia.
  - destruct Hst as [Hclosed _]. exists spans, (Z.of_nat (length doc)).
    split; [done|]. split; [done|]. split; [lia|].
    intros k l Hl Hk. apply label_at_Some_lt in Hl. lia.
Qed.

Lemma entities_to_add_runs chunks doc :
  doc_indexed doc →
  ∃ spans bound,
    entities_to_add chunks doc = Some spans ∧
    closed_ok chunks doc bound spans ∧ bound ≤ Z.of_nat (length doc) ∧
    ∀ (k : nat) l, label_at chunks doc k = Some l → bound ≤ Z.of_nat k →
      ∀ k' : nat, (k ≤ k' < length doc)%nat → label_at chunks doc k' = Some l.
Proof.
  intros Hdoc.
  destruct (merge_loop_runs_indexed chunks doc Hdoc) as (st & Hloop & Hruns).
  destruct (merge_runs_closed _ _ _ Hruns) as (spans & bound & Hm & Hrest).
  exists spans, bound. split; [|done].
  unfold entities_to_add. by rewrite Hloop.
Qed.

(** X6: the second loop and the conversion to token indices never raise:
    whatever the intervals and the tokens (also tokens that are not numbered
    from zero), every entity that reaches [entities] has a label and at
    least one token, so a list of spans comes out. *)
Theorem X6_merger_never_raises (chunks : list ((Z * Z) * string))
    (doc : list Token.t) :
  ∃ st spans,
    merge_loop chunks merge_init doc = Some st ∧
    Forall entity_closed (entities st) ∧
    (inside_entity st = true → entity_closed (entity st)) ∧
    entities_to_add chunks doc = Some spans ∧
    length spans = length (entities st).
Proof.
  destruct (merge_loop_safe chunks doc merge_init) as (st & Hloop & Hall & Hopen).
  { split; [constructor|done]. }
  destruct (entities_to_add_total chunks doc) as [spans Hspans].
  exists st, spans. split; [done|]. split; [done|]. split; [done|]. split; [done|].
  unfold entities_to_add in Hspans. rewrite Hloop in Hspans. simpl in Hspans.
  symmetry. by eapply length_mapM.
Qed.

(** X7: for a document whose tokens are numbered from zero, every emitted
    span lies inside the document: [0 <= start < end < len(doc)]. The end
    is an index of a token, so no span contains the last token. *)
Theorem X7_spans_within_document chunks (doc : list Token.t) :
  doc_indexed doc →
  ∃ spans,
    entities_to_add chunks doc = Some spans ∧
    ∀ sp, sp ∈ spans →
      0 ≤ Span.start sp ∧ Span.start sp < Span.end_ sp ∧
      Span.end_ sp < Z.of_nat (length doc).
Proof.
  intros Hdoc.
  destruct (entities_to_add_runs chunks doc Hdoc)
    as (spans & bound & Hspans & (HA & _) & _).
  exists spans. split; [done|]. intros sp Hsp.
  destruct (HA sp Hsp) as (? & ? & ? & ?). lia.
Qed.

(** X7 at the tokens of ["Paris est beau"]. *)
Lemma X7_spans_within_document_witness :
  ∃ spans,
    entities_to_add [((0, 5), "LOC")]
      [Example.tok 0 0 "Paris"; Example.tok 1 6 "est"; Example.tok 2 10 "beau"]
    = Some spans ∧
    ∀ sp, sp ∈ spans →
      0 ≤ Span.start sp ∧ Span.start sp < Span.end_ sp ∧ Span.end_ sp < 3.
Proof.
  exact (X7_spans_within_document [((0, 5), "LOC")]
    [Example.tok 0 0 "Paris"; Example.tok 1 6 "est"; Example.tok 2 10 "beau"] eq_refl).
Defined.

Lemma spans_good_cons_inv a rest :
  spans_good (a :: rest) →
  Span.start a < Span.end_ a ∧
  Forall (λ b, Span.end_ a ≤ Span.start b) rest ∧
  spans_good rest.
Proof.
  intros (Hpos & Hord & Hadj). apply Forall_cons in Hpos as [Ha Hpos].
  split; [done|]. split.
  - apply Forall_lookup. intros j b Hb. exact (Hord 0%nat (S j) a b ltac:(lia) eq_refl Hb).
  - split; [done|]. split.
    + intros m n x y Hmn Hx Hy. exact (Hord (S m) (S n) x y ltac:(lia) Hx Hy).
    + intros m x y Hx Hy. exact (Hadj (S m) x y Hx Hy).
Qed.

Lemma span_total_bound spans lo hi :
  spans_good spans → lo ≤ hi →
  (∀ sp, sp ∈ spans → lo ≤ Span.start sp ∧ Span.end_ sp ≤ hi) →
  0 ≤ span_total spans ≤ hi - lo.
Proof.
  revert lo. induction spans as [|a rest IH]; intros lo Hgood Hlohi Hin.
  - unfold span_total. simpl. lia.
  - apply spans_good_cons_inv in Hgood as (Ha & Hnext & Hgood).
    destruct (Hin a) as [Hlo Hhi]; [left|].
    assert (0 ≤ span_total rest ≤ hi - Span.end_ a) as Hrest.
    { apply IH; [done|lia|]. intros sp Hsp. split.
      - rewrite Forall_forall in Hnext. by apply Hnext.
      - apply Hin. by right. }
    change (span_total (a :: rest))
      with (Span.end_ a - Span.start a + span_total rest). lia.
Qed.

(** The spans of an indexed document are ordered and lie inside it. *)
Lemma spans_good_within chunks (doc : list Token.t) :
  doc_indexed doc →
  ∃ spans,
    entities_to_add chunks doc = Some spans ∧ spans_good spans ∧
    ∀ sp, sp ∈ spans →
      0 ≤ Span.start sp ∧ Span.start sp < Span.end_ sp ∧
      Span.end_ sp < Z.of_nat (length doc).
Proof.
  intros Hdoc.
  destruct (entities_to_add_runs chunks doc Hdoc)
    as (spans & bound & Hspans & (HA & _) & _).
  destruct (merge_loop_indexed chunks doc Hdoc)
    as (st & Hloop & spans' & Hm & Hgood & _).
  unfold entities_to_add in Hspans. rewrite Hloop in Hspans. simpl in Hspans.
  rewrite Hm in Hspans. simplify_eq.
  exists spans. split; [unfold entities_to_add; by rewrite Hloop|]. split; [done|].
  intros sp Hsp. destruct (HA sp Hsp) as (? & ? & ? & ?). lia.
Qed.

(** X8: for a document whose tokens are numbered from zero, the emitted
    spans together cover at most as many tokens as the document has. *)
Theorem X8_span_lengths_bounded chunks (doc : list Token.t) :
  doc_indexed doc →
  ∃ spans,
    entities_to_add chunks doc = Some spans ∧
    0 ≤ span_total spans ≤ Z.of_nat (length doc).
Proof.
  intros Hdoc.
  destruct (spans_good_within chunks doc Hdoc) as (spans & Hspans & Hgood & Hb).
  exists spans. split; [done|].
  replace (Z.of_nat (length doc)) with (Z.of_nat (length doc) - 0) by lia.
  apply span_total_bound; [done|lia|]. intros sp Hsp.
  destruct (Hb sp Hsp) as (? & ? & ?). lia.
Qed.

(** X8 at the tokens of ["Paris est beau"]. *)
Lemma X8_span_lengths_bounded_witness :
  ∃ spans,
    entities_to_add [((0, 5), "LOC")]
      [Example.tok 0 0 "Paris"; Example.tok 1 6 "est"; Example.tok 2 10 "beau"]
    = Some spans ∧
    0 ≤ span_total spans ≤ 3.
Proof.
  exact (X8_span_lengths_bounded [((0, 5), "LOC")]
    [Example.tok 0 0 "Paris"; Example.tok 1 6 "est"; Example.tok 2 10 "beau"] eq_refl).
Defined.

(** X9: for a document whose tokens are numbered from zero, every token
    inside an emitted span carries the label of the span, the token that
    follows the span does not, and neither does the token before it: a span
    is a whole run of tokens with one label. *)
Theorem X9_span_is_maximal_run chunks (doc : list Token.t) :
  doc_indexed doc →
  ∃ spans,
    entities_to_add chunks doc = Some spans ∧
    ∀ sp, sp ∈ spans →
      (∀ k : nat, Span.start sp ≤ Z.of_nat k < Span.end_ sp →
         label_at chunks doc k = Some (Span.label sp)) ∧
      label_at chunks doc (Z.to_nat (Span.end_ sp)) ≠ Some (Span.label sp) ∧
      (∀ k : nat, Z.of_nat k + 1 = Span.start sp →
         label_at chunks doc k ≠ Some (Span.label sp)).
Proof.
  intros Hdoc.
  destruct (entities_to_add_runs chunks doc Hdoc)
    as (spans & bound & Hspans & (HA & HB & _ & HE & HF) & _).
  exists spans. split; [done|]. intros sp Hsp.
  destruct (HA sp Hsp) as (? & ? & ? & ?).
  split; [intros k; by apply HB|]. split; [apply HE; [done|lia]|].
  intros k; by apply HF.
Qed.

(** X9 at the tokens of ["Paris est beau"]. *)
Lemma X9_span_is_maximal_run_witness :
  ∃ spans,
    entities_to_add [((0, 5), "LOC")]
      [Example.tok 0 0 "Paris"; Example.tok 1 6 "est"; Example.tok 2 10 "beau"]
    = Some spans ∧
    ∀ sp, sp ∈ spans →
      (∀ k : nat, Span.start sp ≤ Z.of_nat k < Span.end_ sp →
         label_at [((0, 5), "LOC")]
           [Example.tok 0 0 "Paris"; Example.tok 1 6 "est"; Example.tok 2 10 "beau"] k
         = Some (Span.label sp)) ∧
      label_at [((0, 5), "LOC")]
        [Example.tok 0 0 "Paris"; Example.tok 1 6 "est"; Example.tok 2 10 "beau"]
        (Z.to_nat (Span.end_ sp)) ≠ Some (Span.label sp) ∧
      (∀ k : nat, Z.of_nat k + 1 = Span.start sp →
         label_at [((0, 5), "LOC")]
           [Example.tok 0 0 "Paris"; Example.tok 1 6 "est"; Example.tok 2 10 "beau"] k
         ≠ Some (Span.label sp)).
Proof.
  exact (X9_span_is_maximal_run [((0, 5), "LOC")]
    [Example.tok 0 0 "Paris"; Example.tok 1 6 "est"; Example.tok 2 10 "beau"] eq_refl).
Defined.

(** X10: for a document whose tokens are numbered from zero, a token that
    carries a label lies in an emitted span with that label, unless it
    belongs to the run that ends the document: then all tokens from it to
    the end of the document carry the label. *)
Theorem X10_labelled_token_covered chunks (doc : list Token.t) (k : nat) l :
  doc_indexed doc →
  label_at chunks doc k = Some l →
  ∃ spans,
    entities_to_add chunks doc = Some spans ∧
    ((∃ sp, sp ∈ spans ∧ Span.start sp ≤ Z.of_nat k < Span.end_ sp ∧
            Span.label sp = l) ∨
     (∀ k' : nat, (k ≤ k' < length doc)%nat → label_at chunks doc k' = Some l)).
Proof.
  intros Hdoc Hl.
  destruct (entities_to_add_runs chunks doc Hdoc)
    as (spans & bound & Hspans & (_ & _ & HC & _) & _ & Htail).
  exists spans. split; [done|].
  destruct (decide (Z.of_nat k < bound)) as [Hlt|Hge].
  - left. by apply HC.
  - right. apply (Htail k l Hl). lia.
Qed.

(** X10 at the token ["Paris"] of ["Paris est beau"]. *)
Lemma X10_labelled_token_covered_witness :
  ∃ spans,
    entities_to_add [((0, 5), "LOC")]
      [Example.tok 0 0 "Paris"; Example.tok 1 6 "est"; Example.tok 2 10 "beau"]
    = Some spans ∧
    ((∃ sp, sp ∈ spans ∧ Span.start sp ≤ Z.of_nat 0 < Span.end_ sp ∧
            Span.label sp = "LOC") ∨
     (∀ k' : nat, (0 ≤ k' < 3)%nat →
        label_at [((0, 5), "LOC")]
          [Example.tok 0 0 "Paris"; Example.tok 1 6 "est"; Example.tok 2 10 "beau"] k'
        = Some "LOC")).
Proof.
  exact (X10_labelled_token_covered [((0, 5), "LOC")]
    [Example.tok 0 0 "Paris"; Example.tok 1 6 "est"; Example.tok 2 10 "beau"]
    0%nat "LOC" eq_refl eq_refl).
Defined.

Lemma merge_step_inside chunks st token st' :
  merge_step chunks st token = Some st' →
  inside_entity st' = bool_decide (is_Some (token_label chunks token)).
Proof.
  unfold merge_step. intros Hstep.
  destruct (inside_entity st) eqn:Hinside;
    destruct (token_label chunks token) as [l|] eqn:Hlabel.
  - destruct (Entity.label (entity st)) as [lbl|]; [|done]. simpl in Hstep.
    destruct (decide (lbl = l)).
    + destruct (Entity.chunks (entity st)); [|done]. by simplify_eq/=.
    + by simplify_eq/=.
  - by simplify_eq/=.
  - by simplify_eq/=.
  - simplify_eq/=. by rewrite Hinside.
Qed.

Lemma merge_loop_inside chunks doc token st st' :
  merge_loop chunks st (doc ++ [token]) = Some st' →
  inside_entity st' = bool_decide (is_Some (token_label chunks token)).
Proof.
  rewrite merge_loop_app. intros Hloop.
  destruct (merge_loop chunks st doc) as [st1|]; simplify_eq/=.
  destruct (merge_step chunks st1 token) as [st2|] eqn:Hstep; simplify_eq/=.
  by eapply merge_step_inside.
Qed.

(** X11: the emitted spans are those of the scan that closes the open span
    after the last token exactly when the document has no token or its last
    token carries no label. Otherwise, for a document whose tokens are
    numbered from zero, exactly the last run is missing: the closing scan
    gives the emitted spans and one more span, which comes after all of
    them, ends with the document, and is the whole run of tokens that carry
    the label of the last token. *)
Theorem X11_flush_missing_iff_last_labelled chunks (doc : list Token.t) :
  (entities_to_add chunks doc = entities_with_flush chunks doc ↔
   ∀ token, last doc = Some token → token_label chunks token = None) ∧
  (doc_indexed doc →
   ∀ token l, last doc = Some token → token_label chunks token = Some l →
     ∃ spans sp,
       entities_to_add chunks doc = Some spans ∧
       entities_with_flush chunks doc = Some (spans ++ [sp]) ∧
       Span.label sp = l ∧
       0 ≤ Span.start sp ∧ Span.start sp < Span.end_ sp ∧
       Span.end_ sp = Z.of_nat (length doc) ∧
       (∀ a, a ∈ spans → Span.end_ a ≤ Span.start sp) ∧
       (∀ k : nat, Span.start sp ≤ Z.of_nat k < Span.end_ sp →
          label_at chunks doc k = Some l) ∧
       (∀ k : nat, Z.of_nat k + 1 = Span.start sp →
          label_at chunks doc k ≠ Some l)).
Proof.
  split.
  - destruct (merge_loop_safe chunks doc merge_init) as (st & Hloop & Hall & Hopen).
    { split; [constructor|done]. }
    unfold entities_to_add, entities_with_flush, merge_flush. rewrite Hloop. simpl.
    assert (is_Some (mapM to_spacy_ent (entities st))) as [spans Hspans].
    { apply mapM_is_Some. eapply Forall_impl; [exact Hall|].
      intros e. apply entity_closed_to_spacy_ent. }
    destruct (inside_entity st) eqn:Hinside.
    + destruct (entity_closed_to_spacy_ent _ (Hopen eq_refl)) as [sp Hsp].
      rewrite (mapM_snoc _ _ _ _ _ Hspans Hsp), Hspans. split.
      * intros [= Heq]. apply (f_equal length) in Heq.
        rewrite length_app in Heq. simpl in Heq. lia.
      * intros Hlast. exfalso.
        destruct doc as [|t doc _] using rev_ind; [by simplify_eq/=|].
        rewrite (merge_loop_inside _ _ _ _ _ Hloop) in Hinside.
        apply bool_decide_eq_true in Hinside as [l Hl].
        rewrite (Hlast t) in Hl; [done|apply last_snoc].
    + split; [|done]. intros _ token Hlast.
      apply last_Some in Hlast as [doc' ->].
      rewrite (merge_loop_inside _ _ _ _ _ Hloop) in Hinside.
      apply bool_decide_eq_false in Hinside.
      destruct (token_label chunks token); [|done]. exfalso. apply Hinside. by eexists.
  - intros Hdoc token l Hlast Hl.
    destruct (merge_loop_runs_indexed chunks doc Hdoc) as (st & Hloop & spans & Hm & Hst).
    assert (inside_entity st = true) as Hinside.
    { apply last_Some in Hlast as [doc' ->].
      rewrite (merge_loop_inside _ _ _ _ _ Hloop), Hl.
      apply bool_decide_eq_true. by eexists. }
    rewrite Hinside in Hst. destruct Hst as (s & l' & Hopen & HA & _).
    pose proof (open_ok_to_spacy_ent _ _ _ _ _ Hopen) as Hconv.
    destruct Hopen as (toks & first & final & He & Hhd & Hlst & Hs & Hfin & Hsn & Hrun & Hprev).
    assert (l' = l) as ->.
    { apply last_Some in Hlast as [doc' ->].
      assert (label_at chunks (doc' ++ [token]) (length doc') = Some l') as Hk.
      { apply Hrun. rewrite length_app. simpl. rewrite length_app in Hsn. simpl in Hsn. lia. }
      rewrite label_at_snoc_here, Hl in Hk. by simplify_eq. }
    exists spans, (Span.mk s (Z.of_nat (length doc)) l).
    unfold entities_to_add, entities_with_flush, merge_flush.
    rewrite Hloop. simpl. rewrite Hinside.
    split; [done|]. split; [by apply mapM_snoc|]. simpl.
    split; [done|]. split; [lia|]. split; [lia|]. split; [done|].
    split; [|by split].
    intros a Ha. destruct (HA a Ha) as (? & ? & ? & ?). lia.
Qed.

(** * More on the document assembler and the batch *)

(** X12: from the file to the entities. When the tokens of a returned
    document, which are those that the language model made of the flattened
    text, are numbered from zero, every token inside an entity of the
    document lies, with its whole character range, inside an interval that
    the flattener recorded with the label of the entity. *)
Theorem X12_entity_tokens_inside_annotation `{W : World}
    (tei_file_path : string) (soup : PageElement) (doc : Doc.t) :
  read_soup tei_file_path = Some soup →
  tei2spacy_simple tei_file_path = Some doc →
  doc_indexed (Doc.tokens doc) →
  (∃ doc0, nlp_model_fr (flatten soup).1 = Some doc0 ∧
           Doc.tokens doc = Doc.tokens doc0) ∧
  ∀ sp (k : nat), sp ∈ Doc.ents doc →
    Span.start sp ≤ Z.of_nat k < Span.end_ sp →
    ∃ token iv,
      Doc.tokens doc !! k = Some token ∧
      (iv, Span.label sp) ∈ (flatten soup).2 ∧
      iv.1 ≤ Token.idx token ∧
      Token.idx token + len (Token.text token) ≤ iv.2.
Proof.
  intros Hsoup Hdoc Hidx.
  destruct (tei2spacy_simple_inv _ _ Hdoc)
    as (soup' & metadata & doc0 & author & title & date
        & Hsoup' & _ & Hnlp & _ & _ & _ & _ & Htok & Hents).
  assert (soup' = soup) as -> by congruence.
  split; [by exists doc0|]. intros sp k Hsp Hk.
  destruct (entities_to_add_runs (flatten soup).2 (Doc.tokens doc) Hidx)
    as (spans & bound & Hspans & (_ & HB & _) & _).
  rewrite Hents in Hspans. simplify_eq.
  specialize (HB sp k Hsp Hk). unfold label_at in HB.
  destruct (Doc.tokens doc !! k) as [token|]; [|done]. simpl in HB.
  apply get_tag_Some in HB as (iv & Hin & Hc1 & Hc2).
  by exists token, iv.
Qed.

(** X12 at the file [paris.xml] of the small world. *)
Lemma X12_entity_tokens_inside_annotation_witness :
  ∃ doc,
    tei2spacy_simple (W := Example.world []) "NER/paris.xml" = Some doc ∧
    ∀ sp (k : nat), sp ∈ Doc.ents doc →
      Span.start sp ≤ Z.of_nat k < Span.end_ sp →
      ∃ token iv,
        Doc.tokens doc !! k = Some token ∧
        (iv, Span.label sp)
          ∈ (flatten (W := Example.world []) Example.soup_paris).2 ∧
        iv.1 ≤ Token.idx token ∧
        Token.idx token + len (Token.text token) ≤ iv.2.
Proof.
  eexists. split; [vm_compute; reflexivity|].
  apply (X12_entity_tokens_inside_annotation (W := Example.world [])
           "NER/paris.xml" Example.soup_paris).
  - vm_compute. reflexivity.
  - vm_compute. reflexivity.
  - vm_compute. reflexivity.
Defined.

(** X13: what makes a run of the batch raise. A stored document without a
    usable path (no ['path'] in its [user_data], or [None]) stops the run
    before any file is handed to [tei2spacy_simple]; and one file on which
    [tei2spacy_simple] raises stops the whole run. A run that raises writes
    nothing: the stored corpus stays as it was. *)
Theorem X13_batch_failure_causes `{W : World} (disk : option DocBin.t) :
  (∀ doc, doc ∈ load_corpus disk → doc_path doc = None →
     files_to_process disk = None ∧ run_batch disk = None ∧
     disk_after_run disk = disk) ∧
  (∀ files file,
     files_to_process disk = Some files → file ∈ files →
     tei2spacy_simple file = None →
     run_batch disk = None ∧ disk_after_run disk = disk).
Proof.
  assert (∀ d, run_batch d = None → disk_after_run d = d) as Hkeep.
  { intros d Hnone. unfold disk_after_run. by rewrite Hnone. }
  split.
  - intros doc Hin Hnone.
    assert (files_to_process disk = None) as Hf.
    { unfold files_to_process, already_processed_files, DocBin.get_docs.
      replace (mapM doc_path (load_corpus disk)) with (@None (list string)); [done|].
      symmetry. apply mapM_None. apply Exists_exists. by exists doc. }
    assert (run_batch disk = None) as Hrun by (unfold run_batch; by rewrite Hf).
    split; [done|]. split; [done|]. by apply Hkeep.
  - intros files file Hf Hin Hnone.
    assert (run_batch disk = None) as Hrun.
    { unfold run_batch. rewrite Hf. simpl.
      replace (mapM tei2spacy_simple files) with (@None (list Doc.t)); [done|].
      symmetry. apply mapM_None. apply Exists_exists. by exists file. }
    split; [done|]. by apply Hkeep.
Qed.

(** X13 on a stored corpus whose only document has no path, and on a
    directory with a file that cannot be parsed. *)
Lemma X13_batch_failure_causes_witness :
  disk_after_run (W := Example.world ["NER/jean.xml"]) (Some [Doc.mk [] ∅ []])
  = Some [Doc.mk [] ∅ []] ∧
  run_batch (W := Example.world ["NER/broken.xml"; "NER/jean.xml"]) None = None.
Proof.
  split.
  - apply (proj1 (X13_batch_failure_causes (W := Example.world ["NER/jean.xml"])
                    (Some [Doc.mk [] ∅ []])) (Doc.mk [] ∅ [])); [left|reflexivity].
  - apply (proj2 (X13_batch_failure_causes
                    (W := Example.world ["NER/broken.xml"; "NER/jean.xml"]) None)
             (elements (list_to_set ["NER/broken.xml"; "NER/jean.xml"] : gset string))
             "NER/broken.xml").
    + vm_compute. reflexivity.
    + apply elem_of_elements, elem_of_list_to_set. left.
    + reflexivity.
Defined.

(** X14: a run of the batch that does not raise keeps the stored documents,
    in their order, at the front of the corpus and adds one document for
    each file of the directory that was not in the corpus; afterwards the
    path of every file of the directory is in the corpus. *)
Theorem X14_batch_extends_corpus `{W : World} (disk : option DocBin.t)
    (bin : DocBin.t) :
  iterates_once W →
  run_batch disk = Some bin →
  ∃ docs,
    bin = load_corpus disk ++ docs ∧
    length docs
    = size (list_to_set (iterdir ner_dir)
            ∖ list_to_set (corpus_paths (load_corpus disk)) : gset string) ∧
    corpus_paths bin = corpus_paths (load_corpus disk) ++ corpus_paths docs ∧
    (∀ path, path ∈ corpus_paths docs ↔
       path ∈ iterdir ner_dir ∧ path ∉ corpus_paths (load_corpus disk)) ∧
    (∀ path, path ∈ iterdir ner_dir → path ∈ corpus_paths bin).
Proof.
  intros Hiter Hrun.
  destruct (run_batch_inv Hiter disk bin Hrun)
    as (paths & files & docs & Hpaths & Hfiles & Hdocs & Hdp & Hbin).
  exists docs. rewrite (corpus_paths_mapM _ _ Hpaths), (corpus_paths_mapM _ _ Hdp).
  assert (∀ path, path ∈ files ↔ path ∈ iterdir ner_dir ∧ path ∉ paths) as Hmem.
  { intros path. rewrite Hfiles, (set_iter_elem Hiter). set_solver. }
  split; [done|]. split.
  - rewrite (length_mapM _ _ _ Hdp), Hfiles.
    unfold size, set_size. simpl. by rewrite (Hiter _).
  - split.
    + rewrite Hbin. apply corpus_paths_mapM. by apply mapM_app_Some.
    + split; [done|]. intros path Hin.
      rewrite Hbin, (corpus_paths_mapM _ _ (mapM_app_Some _ _ _ _ _ Hpaths Hdp)).
      apply elem_of_app. destruct (decide (path ∈ paths)); [by left|right].
      by apply Hmem.
Qed.

(** X14 in the small world, from an empty store and two files. *)
Lemma X14_batch_extends_corpus_witness :
  ∃ bin docs,
    run_batch (W := Example.world ["NER/jean.xml"; "NER/paris.xml"]) None = Some bin ∧
    bin = load_corpus None ++ docs ∧
    (∀ path, path ∈ iterdir (World := Example.world ["NER/jean.xml"; "NER/paris.xml"])
                      ner_dir →
             path ∈ corpus_paths bin).
Proof.
  eexists.
  destruct (X14_batch_extends_corpus
              (W := Example.world ["NER/jean.xml"; "NER/paris.xml"]) None _
              (λ X, reflexivity (elements X)) ltac:(vm_compute; reflexivity))
    as (docs & Hbin & _ & _ & _ & Hall).
  exists docs. split; [vm_compute; reflexivity|]. by split.
Defined.

(** X3 at [<reg><placeName>Paris</placeName> est beau</reg>] and the token
    ["est"]. *)
Lemma X3_flattened_intervals_sorted_witness :
  token_label (flatten (W := Example.world []) Example.soup_paris).2
    (Example.tok 1 6 "est")
  = sorted_scan 6 9 (flatten (W := Example.world []) Example.soup_paris).2.
Proof.
  exact (proj2 (proj2 (proj2
    (X3_flattened_intervals_sorted (W := Example.world []) Example.soup_paris)))
    (Example.tok 1 6 "est")).
Defined.

(** X5 with two intervals that both contain the range: the first wins. *)
Lemma X5_lookup_first_match_witness :
  get_tag_from_char_index 2 4 [((5, 9), "LOC"); ((0, 5), "PER"); ((1, 6), "LOC")]
  = Some "PER".
Proof.
  apply (proj2 (X5_lookup_first_match 2 4
                  [((5, 9), "LOC"); ((0, 5), "PER"); ((1, 6), "LOC")] "PER")).
  exists [((5, 9), "LOC")], (0, 5), [((1, 6), "LOC")].
  split; [reflexivity|]. split; [unfold contains; simpl; lia|].
  intros iv' tag' Hin. apply list_elem_of_singleton in Hin. simplify_eq.
  unfold contains. simpl. lia.
Defined.

(** X11 at the tokens ["Bonjour"], ["Jean"]: the last token carries a label,
    and the closing scan has one more span, which ends with the document. *)
Lemma X11_flush_missing_iff_last_labelled_witness :
  ∃ spans sp,
    entities_to_add [((8, 12), "PER")]
      [Example.tok 0 0 "Bonjour"; Example.tok 1 8 "Jean"] = Some spans ∧
    entities_with_flush [((8, 12), "PER")]
      [Example.tok 0 0 "Bonjour"; Example.tok 1 8 "Jean"] = Some (spans ++ [sp]) ∧
    Span.label sp = "PER" ∧ Span.end_ sp = 2.
Proof.
  destruct (proj2 (X11_flush_missing_iff_last_labelled [((8, 12), "PER")]
                     [Example.tok 0 0 "Bonjour"; Example.tok 1 8 "Jean"])
              eq_refl (Example.tok 1 8 "Jean") "PER" eq_refl eq_refl)
    as (spans & sp & Hs & Hf & Hl & _ & _ & He & _).
  by exists spans, sp.
Defined.
